(** * A shallow embedding of the CF compiler (compiler.py)

    CF compiles a small C-like language to the eight-instruction tape
    language.  This development embeds the code generator of
    [compiler.py]: the [Compiler] class (emitter, head tracking and cell
    allocator), the type and value classes, the table of intrinsics and
    the AST evaluator.  Python exceptions are results of an error monad
    over the mutable compiler object; the mutations done before an
    exception is raised stay visible, as they do in Python. *)

From Stdlib Require Import ZArith List String Ascii Bool Lia.
From stdpp Require Import base gmap strings.
Import ListNotations.

Set Warnings "-register-all".
Local Open Scope string_scope.
Local Open Scope Z_scope.

(** ** Python objects *)

(** The four type classes.  The [compiler] attribute is the one module
    level compiler and is left out. *)
Inductive pytype : Type :=
| ByteType
| ListType (type : pytype) (size : Z)
| VirtualIntegerType
| VirtualListType.

(** The objects that flow through the evaluator: [None], integers, Python
    lists, type objects and the four value classes. *)
Inductive value : Type :=
| PyNone
| PyInt (n : Z)
| PyList (items : list value)
| PyType (t : pytype)
| Byte (type : pytype) (pointer : Z)
| List (type : pytype) (values : list value)
| VirtualInteger (type : pytype) (value_ : value)
| VirtualList (type : pytype) (values : list value).

(** Exceptions the code can raise. *)
Inductive exn : Type :=
| Exception (msg : string)
| NameError (name : string)
| TypeError (msg : string)
| AttributeError (attr : string)
| KeyError (key : string)
| IndexError
| RecursionError.

Inductive result (A : Type) : Type :=
| Ok (a : A)
| Raise (e : exn).
Arguments Ok {A} a.
Arguments Raise {A} e.

(** ** The AST classes *)

(** Classes with an [evaluate] method; [Code] holds a statement list. *)
Inductive node : Type :=
| FunctionCall (name : string) (parameters : list node)
| Copy (expr : node)
| Get (name : string)
| Getitem (expr : node) (index : Z)
| Declaration (type : pytype) (name : string)
| If (condition : node) (code : Code)
| While (condition : node) (code : Code)
| Literal (n : Z)
    (** Modelled from the spec: the literal-producing leaf of section 4.5
        ("Literal integer / char -> VirtualInteger with the literal
        value").  The source has no class for it: its parse-tree visitor
        returns the [VirtualInteger] itself. *)
with Code : Type :=
| mkCode (statements : list node).

(** The functions registered at module level through
    [@compiler.function]. *)
Inductive builtin : Type :=
| assign | assign_virtual | succ | pred | iadd | iadd_virtual
| isub | isub_virtual | imul | imul_virtual | nnot | eq | read | write.

Inductive callable : Type :=
| BuiltinFunction (func : builtin)
| Function (param_names : list string) (code : Code) (return_expr : option node).

(** ** The compiler object *)

Record Compiler : Type := mkCompiler {
  program : list string;
  current_index : Z;
  non_allocated : Z;
  gaps : list Z;
  variables : option (gmap string value);
  functions : list ((string * list pytype) * callable)
}.

(** Computations over the one mutable compiler. *)
Definition M (A : Type) : Type := Compiler -> Compiler * result A.

Definition ret {A} (a : A) : M A := fun c => (c, Ok a).
Definition raise {A} (e : exn) : M A := fun c => (c, Raise e).
Definition bind {A B} (m : M A) (k : A -> M B) : M B :=
  fun c => match m c with
           | (c', Ok a) => k a c'
           | (c', Raise e) => (c', Raise e)
           end.

Notation "x <- m ;; k" := (bind m (fun x => k))
  (at level 100, m at next level, right associativity).
Notation "m ;;; k" := (bind m (fun _ => k))
  (at level 100, right associativity).

Fixpoint for_each {A} (l : list A) (body : A -> M unit) : M unit :=
  match l with
  | [] => ret tt
  | x :: l' => body x ;;; for_each l' body
  end.

(** Python's [s * n] on a string: the empty string when [n <= 0]. *)
Fixpoint repeat_string (s : string) (n : nat) : string :=
  match n with
  | O => ""
  | S n' => s +:+ repeat_string s n'
  end.

Definition str_mul (s : string) (n : value) : M string :=
  match n with
  | PyInt k => ret (repeat_string s (Z.to_nat k))
  | _ => raise (TypeError "can't multiply sequence by non-int")
  end.

(** Attribute reads; a missing attribute raises [AttributeError].  A
    [ListType] object has a [type] attribute of its own, the element
    type. *)
Definition pointer_of (v : value) : M Z :=
  match v with
  | Byte _ p => ret p
  | _ => raise (AttributeError "pointer")
  end.

Definition value_of (v : value) : M value :=
  match v with
  | VirtualInteger _ x => ret x
  | _ => raise (AttributeError "value")
  end.

Definition type_of (v : value) : M pytype :=
  match v with
  | Byte t _ | List t _ | VirtualInteger t _ | VirtualList t _ => ret t
  | PyType (ListType t _) => ret t
  | _ => raise (AttributeError "type")
  end.

Definition values_of (v : value) : M (list value) :=
  match v with
  | List _ vs | VirtualList _ vs => ret vs
  | _ => raise (AttributeError "values")
  end.

(** *** Compiler.allocate, execute, goto, move_cell, free_cell, loop *)

Definition allocate : M Z := fun c =>
  match gaps c with
  | g :: _ => (c, Ok g)
  | [] =>
      let result := non_allocated c in
      (mkCompiler (program c) (current_index c) (non_allocated c + 1)
                  (gaps c) (variables c) (functions c), Ok result)
  end.

Definition execute (code : string) : M unit := fun c =>
  (mkCompiler (program c ++ [code]) (current_index c) (non_allocated c)
              (gaps c) (variables c) (functions c), Ok tt).

Definition set_current_index (index : Z) : M unit := fun c =>
  (mkCompiler (program c) index (non_allocated c)
              (gaps c) (variables c) (functions c), Ok tt).

Definition goto (index : Z) : M unit := fun c =>
  ((if current_index c <? index
    then execute (repeat_string ">" (Z.to_nat (index - current_index c)))
    else execute (repeat_string "<" (Z.to_nat (current_index c - index)))) ;;;
   set_current_index index) c.

Definition free_cell (index : Z) : M unit := fun c =>
  if index + 1 =? non_allocated c
  then (mkCompiler (program c) (current_index c) (non_allocated c - 1)
                   (gaps c) (variables c) (functions c), Ok tt)
  else (mkCompiler (program c) (current_index c) (non_allocated c)
                   (gaps c ++ [index]) (variables c) (functions c), Ok tt).

(** The context manager: an exception raised by the body leaves the
    generator at its [yield], so neither ["]"] nor the check happens. *)
Definition loop (body : M unit) : M unit := fun c =>
  let save := current_index c in
  (execute "[" ;;;
   body ;;;
   execute "]" ;;;
   (fun c' => if negb (save =? current_index c')
              then raise (Exception "unbalanced loop") c'
              else ret tt c')) c.

Definition move_cell (source : Z) (targets : list Z) (multiplier : value) : M unit :=
  goto source ;;;
  loop (execute "-" ;;;
        for_each targets (fun target =>
          goto target ;;;
          code <- str_mul "+" multiplier ;;
          execute code) ;;;
        goto source).

(** *** Type and value methods *)

(** [Byte.__init__] takes [(type, compiler, pointer)]. [Byte.copy] calls
    it with two arguments, which raises [TypeError] at the call. *)
Definition Byte_copy (self : value) : M value :=
  a1 <- allocate ;;
  a2 <- allocate ;;
  p <- pointer_of self ;;
  move_cell p [a1; a2] (PyInt 1) ;;;
  p' <- pointer_of self ;;
  move_cell a2 [p'] (PyInt 1) ;;;
  free_cell a2 ;;;
  raise (TypeError "__init__() missing 1 required positional argument: 'pointer'").

(** The [copy] method of an object; a Python list has one too. *)
Definition copy (v : value) : M value :=
  match v with
  | Byte _ _ => Byte_copy v
  | VirtualInteger t x => ret (VirtualInteger t x)
  | VirtualList t vs => ret (VirtualList t vs)
  | PyList items => ret (PyList items)
  | _ => raise (AttributeError "copy")
  end.

Definition free (v : value) : M unit :=
  match v with
  | Byte _ p => free_cell p
  | VirtualInteger _ _ | VirtualList _ _ => ret tt
  | _ => raise (AttributeError "free")
  end.

Definition new (t : pytype) : M value :=
  match t with
  | ByteType => p <- allocate ;; ret (Byte ByteType p)
  | ListType _ _ => raise (AttributeError "lsize")
  | VirtualIntegerType => ret (VirtualInteger VirtualIntegerType (PyInt 0))
  | VirtualListType => ret (VirtualInteger VirtualListType (PyList []))
  end.

(** [__eq__] of the type classes, applied to any object.
    [VirtualIntegerType.__eq__] tests [type(other) == VirtualInteger]. *)
Fixpoint type_eq (self : pytype) (other : value) : bool :=
  match self with
  | ByteType =>
      match other with PyType ByteType => true | _ => false end
  | ListType t _ =>
      match other with
      | PyType (ListType t' _) => type_eq t (PyType t')
      | _ => false
      end
  | VirtualIntegerType =>
      match other with VirtualInteger _ _ => true | _ => false end
  | VirtualListType =>
      match other with PyType VirtualListType => true | _ => false end
  end.

(** *** The intrinsics *)

(** The functions decorated with [@compiler.function], under their
    source names. *)
Module Intrinsic.

Definition assign (x y : value) : M value :=
  px <- pointer_of x ;;
  goto px ;;;
  execute "[-]" ;;;
  py <- pointer_of y ;;
  px' <- pointer_of x ;;
  move_cell py [px'] (PyInt 1) ;;;
  ret PyNone.

Definition assign_virtual (x y : value) : M value :=
  px <- pointer_of x ;;
  goto px ;;;
  execute "[-]" ;;;
  v <- value_of y ;;
  code <- str_mul "+" v ;;
  execute code ;;;
  ret PyNone.

Definition succ (x : value) : M value :=
  px <- pointer_of x ;;
  goto px ;;;
  execute "+" ;;;
  ret x.

Definition pred (x : value) : M value :=
  px <- pointer_of x ;;
  goto px ;;;
  execute "-" ;;;
  ret x.

Definition iadd (x y : value) : M value :=
  py <- pointer_of y ;;
  px <- pointer_of x ;;
  move_cell py [px] (PyInt 1) ;;;
  free y ;;;
  ret x.

Definition iadd_virtual (x y : value) : M value :=
  px <- pointer_of x ;;
  goto px ;;;
  v <- value_of y ;;
  code <- str_mul "+" v ;;
  execute code ;;;
  ret x.

(** The body of [isub] names [self], which is bound nowhere at module
    level: its first statement raises [NameError]. *)
Definition isub (x y : value) : M value :=
  raise (NameError "self").

Definition isub_virtual (x y : value) : M value :=
  px <- pointer_of x ;;
  goto px ;;;
  v <- value_of y ;;
  code <- str_mul "-" v ;;
  execute code ;;;
  ret x.

Definition imul (x y : value) : M value :=
  x_prime <- copy x ;;
  px <- pointer_of x ;;
  goto px ;;;
  execute "[-]" ;;;
  py <- pointer_of y ;;
  goto py ;;;
  loop (execute "-" ;;;
        x_prime_prime <- copy x_prime ;;
        ppp <- pointer_of x_prime_prime ;;
        px' <- pointer_of x ;;
        move_cell ppp [px'] (PyInt 1) ;;;
        free x_prime_prime ;;;
        py' <- pointer_of y ;;
        goto py') ;;;
  free y ;;;
  ret x.

Definition imul_virtual (x y : value) : M value :=
  x_prime <- new ByteType ;;
  px <- pointer_of x ;;
  pp <- pointer_of x_prime ;;
  v <- value_of y ;;
  move_cell px [pp] v ;;;
  pp' <- pointer_of x_prime ;;
  px' <- pointer_of x ;;
  move_cell pp' [px'] (PyInt 1) ;;;
  ret x.

Definition nnot (x : value) : M value :=
  y <- new ByteType ;;
  py <- pointer_of y ;;
  goto py ;;;
  execute "[-]+" ;;;
  px <- pointer_of x ;;
  goto px ;;;
  loop (execute "[-]" ;;;
        py' <- pointer_of y ;;
        goto py' ;;;
        execute "-" ;;;
        px' <- pointer_of x ;;
        goto px') ;;;
  ret y.

Definition eq (x y : value) : M value :=
  py <- pointer_of y ;;
  goto py ;;;
  loop (execute "-" ;;;
        px <- pointer_of x ;;
        goto px ;;;
        execute "-" ;;;
        py' <- pointer_of y ;;
        goto py') ;;;
  z <- new ByteType ;;
  pz <- pointer_of z ;;
  goto pz ;;;
  execute "[-]+" ;;;
  px <- pointer_of x ;;
  goto px ;;;
  loop (execute "[-]" ;;;
        pz' <- pointer_of z ;;
        goto pz' ;;;
        execute "-" ;;;
        px' <- pointer_of x ;;
        goto px') ;;;
  free x ;;;
  free y ;;;
  ret z.

Definition read : M value :=
  x <- allocate ;;
  goto x ;;;
  execute "," ;;;
  ret (Byte ByteType x).

Definition write (x : value) : M value :=
  px <- pointer_of x ;;
  goto px ;;;
  execute "." ;;;
  ret PyNone.

End Intrinsic.

(** [BuiltinFunction.call]: [self.func( *args)]. *)
Definition call_builtin (func : builtin) (args : list value) : M value :=
  match func, args with
  | assign, [x; y] => Intrinsic.assign x y
  | assign_virtual, [x; y] => Intrinsic.assign_virtual x y
  | succ, [x] => Intrinsic.succ x
  | pred, [x] => Intrinsic.pred x
  | iadd, [x; y] => Intrinsic.iadd x y
  | iadd_virtual, [x; y] => Intrinsic.iadd_virtual x y
  | isub, [x; y] => Intrinsic.isub x y
  | isub_virtual, [x; y] => Intrinsic.isub_virtual x y
  | imul, [x; y] => Intrinsic.imul x y
  | imul_virtual, [x; y] => Intrinsic.imul_virtual x y
  | nnot, [x] => Intrinsic.nnot x
  | eq, [x; y] => Intrinsic.eq x y
  | read, [] => Intrinsic.read
  | write, [x] => Intrinsic.write x
  | _, _ => raise (TypeError "wrong number of positional arguments")
  end.

(** The table the decorators fill, in registration order. *)
Definition intrinsics : list ((string * list pytype) * callable) :=
  [ (("=", [ByteType; ByteType]), BuiltinFunction assign);
    (("=", [ByteType; VirtualIntegerType]), BuiltinFunction assign_virtual);
    (("++", [ByteType]), BuiltinFunction succ);
    (("--", [ByteType]), BuiltinFunction pred);
    (("+=", [ByteType; ByteType]), BuiltinFunction iadd);
    (("+=", [ByteType; VirtualIntegerType]), BuiltinFunction iadd_virtual);
    (("-=", [ByteType; ByteType]), BuiltinFunction isub);
    (("-=", [ByteType; VirtualIntegerType]), BuiltinFunction isub_virtual);
    (("*=", [ByteType; ByteType]), BuiltinFunction imul);
    (("*=", [ByteType; VirtualIntegerType]), BuiltinFunction imul_virtual);
    (("!", [ByteType]), BuiltinFunction nnot);
    (("==", [ByteType; ByteType]), BuiltinFunction eq);
    (("read", []), BuiltinFunction read);
    (("write", [ByteType]), BuiltinFunction write) ].

(** [Compiler({}, {})] followed by the registrations. *)
Definition compiler : Compiler := mkCompiler [] 0 0 [] None intrinsics.

(** ** The AST evaluator *)

Fixpoint map_M {A B} (f : A -> M B) (l : list A) : M (list B) :=
  match l with
  | [] => ret []
  | x :: l' => y <- f x ;; ys <- map_M f l' ;; ret (y :: ys)
  end.

(** Identity of type objects.  The three handles [compiler.byte],
    [compiler.virtual_integer] and [compiler.virtual_list] are single
    objects; a [ListType] object is never shared between a table key and
    a value. *)
Definition type_is (a b : pytype) : bool :=
  match a, b with
  | ByteType, ByteType
  | VirtualIntegerType, VirtualIntegerType
  | VirtualListType, VirtualListType => true
  | _, _ => false
  end.

(** Equality of two parameter tuples as the dictionary tests it: item by
    item, identity first and then [__eq__] of the stored item.  Items that
    pass this test have equal [__hash__], so the hash test adds nothing. *)
Fixpoint params_eq (stored looked : list pytype) : bool :=
  match stored, looked with
  | [], [] => true
  | a :: stored', b :: looked' =>
      (type_is a b || type_eq a (PyType b)) && params_eq stored' looked'
  | _, _ => false
  end.

Definition key_eq (stored looked : string * list pytype) : bool :=
  String.eqb (fst stored) (fst looked) && params_eq (snd stored) (snd looked).

(** [compiler.functions[key]] *)
Definition lookup_function (name : string) (types : list pytype) : M callable :=
  fun c =>
    match find (fun entry => key_eq (fst entry) (name, types)) (functions c) with
    | Some (_, f) => (c, Ok f)
    | None => (c, Raise (KeyError name))
    end.

(** [compiler.variables[name]]; the attribute does not exist before the
    first [Function.call]. *)
Definition get_variable (name : string) : M value := fun c =>
  match variables c with
  | None => (c, Raise (AttributeError "variables"))
  | Some vars =>
      match vars !! name with
      | Some v => (c, Ok v)
      | None => (c, Raise (KeyError name))
      end
  end.

Definition set_variable (name : string) (v : value) : M unit := fun c =>
  match variables c with
  | None => (c, Raise (AttributeError "variables"))
  | Some vars =>
      (mkCompiler (program c) (current_index c) (non_allocated c) (gaps c)
                  (Some (<[name := v]> vars)) (functions c), Ok tt)
  end.

Definition set_variables (vars : gmap string value) : M unit := fun c =>
  (mkCompiler (program c) (current_index c) (non_allocated c) (gaps c)
              (Some vars) (functions c), Ok tt).

(** [dict(zip(names, args))]: a later pair overrides an earlier one. *)
Fixpoint dict_zip (names : list string) (args : list value)
  (acc : gmap string value) : gmap string value :=
  match names, args with
  | n :: names', a :: args' => dict_zip names' args' (<[n := a]> acc)
  | _, _ => acc
  end.

(** Python list indexing, negative indices included. *)
Definition getitem (vs : list value) (index : Z) : M value :=
  let n := Z.of_nat (length vs) in
  let i := if index <? 0 then index + n else index in
  if (0 <=? i) && (i <? n)
  then match nth_error vs (Z.to_nat i) with
       | Some v => ret v
       | None => raise IndexError
       end
  else raise IndexError.

Definition Code_execute (ev : node -> M value) (code : Code) : M unit :=
  match code with
  | mkCode statements => for_each statements (fun statement => ev statement ;;; ret tt)
  end.

Definition call (ev : node -> M value) (f : callable) (args : list value) : M value :=
  match f with
  | BuiltinFunction func => call_builtin func args
  | Function param_names code return_expr =>
      set_variables (dict_zip param_names args ∅) ;;;
      Code_execute ev code ;;;
      match return_expr with
      | Some e => ev e
      | None => ret PyNone
      end
  end.

(** The [evaluate] methods.  [fuel] bounds the depth of nested calls,
    as the interpreter's recursion limit does. *)
Fixpoint evaluate (fuel : nat) (n : node) {struct fuel} : M value :=
  match fuel with
  | O => raise RecursionError
  | S fuel' =>
      let ev := evaluate fuel' in
      match n with
      | FunctionCall name parameters =>
          args <- map_M ev parameters ;;
          types <- map_M type_of args ;;
          f <- lookup_function name types ;;
          call ev f args
      | Copy expr =>
          v <- ev expr ;;
          copy v
      | Get name => get_variable name
      | Getitem expr index =>
          v <- ev expr ;;
          vs <- values_of v ;;
          getitem vs index
      | Declaration type name =>
          v <- new type ;;
          set_variable name v ;;;
          ret PyNone
      | If condition code =>
          cond <- ev condition ;;
          p <- pointer_of cond ;;
          goto p ;;;
          loop (Code_execute ev code ;;;
                p' <- pointer_of cond ;;
                goto p' ;;;
                execute "[-]") ;;;
          ret PyNone
      | While condition code =>
          cond <- ev condition ;;
          p <- pointer_of cond ;;
          goto p ;;;
          loop (Code_execute ev code ;;;
                cond' <- ev condition ;;
                p' <- pointer_of cond' ;;
                goto p') ;;;
          ret PyNone
      | Literal n => ret (VirtualInteger VirtualIntegerType (PyInt n))
      end
  end.

(** [Compiler.compile] *)
Definition compile (fuel : nat) : M (list string) :=
  evaluate fuel (FunctionCall "main" []) ;;;
  (fun c => (c, Ok (program c))).

(** [table[key] = f] on the dictionary of functions: the value of an
    equal key is replaced, a new key goes to the end. *)
Fixpoint dict_set (key : string * list pytype) (f : callable)
  (table : list ((string * list pytype) * callable))
  : list ((string * list pytype) * callable) :=
  match table with
  | [] => [(key, f)]
  | (k, g) :: rest =>
      if key_eq k key then (k, f) :: rest else (k, g) :: dict_set key f rest
  end.

(** Registering a source-level function:
    [compiler.functions[(name, params)] = f]. *)
Definition register (name : string) (params : list pytype) (f : callable)
  (c : Compiler) : Compiler :=
  mkCompiler (program c) (current_index c) (non_allocated c) (gaps c)
             (variables c) (dict_set (name, params) f (functions c)).

(** The emitted text: the pieces of [program], joined. *)
Fixpoint join (pieces : list string) : string :=
  match pieces with
  | [] => ""
  | p :: ps => p +:+ join ps
  end.

(** ** The target machine *)

(** Modelled from the spec: the tape machine of section 6, which the
    repository does not implement.  The tape is unbounded in both
    directions, cells hold bytes and start at zero, [+] and [-] wrap
    modulo 256, a loop repeats while the cell under the head is not zero.
    Reading at end of input leaves the cell as it is. *)
Inductive instr : Type :=
| IRight | ILeft | IInc | IDec | IOut | IIn
| ILoop (body : list instr).

Record machine : Type := mkMachine {
  tape : Z -> Z;
  head : Z;
  input : list Z;
  output : list Z
}.

Definition blank : Z -> Z := fun _ => 0.

Definition update (t : Z -> Z) (i v : Z) : Z -> Z :=
  fun j => if j =? i then v else t j.

Definition step (i : instr) (m : machine) : machine :=
  match i with
  | IRight => mkMachine (tape m) (head m + 1) (input m) (output m)
  | ILeft => mkMachine (tape m) (head m - 1) (input m) (output m)
  | IInc => mkMachine (update (tape m) (head m) ((tape m (head m) + 1) mod 256))
                      (head m) (input m) (output m)
  | IDec => mkMachine (update (tape m) (head m) ((tape m (head m) - 1) mod 256))
                      (head m) (input m) (output m)
  | IOut => mkMachine (tape m) (head m) (input m) (output m ++ [tape m (head m)])
  | IIn => match input m with
           | [] => m
           | b :: rest => mkMachine (update (tape m) (head m) (b mod 256))
                                    (head m) rest (output m)
           end
  | ILoop _ => m
  end.

Fixpoint exec (fuel : nat) (p : list instr) (m : machine) : option machine :=
  match fuel with
  | O => None
  | S fuel' =>
      match p with
      | [] => Some m
      | ILoop body :: rest =>
          if tape m (head m) =? 0 then exec fuel' rest m
          else match exec fuel' body m with
               | Some m' => exec fuel' p m'
               | None => None
               end
      | i :: rest => exec fuel' rest (step i m)
      end
  end.

(** Reading the flat text: brackets nest, other characters are skipped. *)
Definition op_of (c : ascii) : list instr :=
  if Ascii.eqb c ">" then [IRight]
  else if Ascii.eqb c "<" then [ILeft]
  else if Ascii.eqb c "+" then [IInc]
  else if Ascii.eqb c "-" then [IDec]
  else if Ascii.eqb c "." then [IOut]
  else if Ascii.eqb c "," then [IIn]
  else [].

Fixpoint scan (code : string) (cur : list instr) (stack : list (list instr))
  : option (list instr * list (list instr)) :=
  match code with
  | EmptyString => Some (cur, stack)
  | String c rest =>
      if Ascii.eqb c "[" then scan rest [] (cur :: stack)
      else if Ascii.eqb c "]" then
        match stack with
        | [] => None
        | parent :: stack' => scan rest (ILoop (List.rev cur) :: parent) stack'
        end
      else scan rest (op_of c ++ cur) stack
  end.

Definition parse (code : string) : option (list instr) :=
  match scan code [] [] with
  | Some (cur, []) => Some (List.rev cur)
  | _ => None
  end.

Definition run (fuel : nat) (code : string) (m : machine) : option machine :=
  match parse code with
  | Some p => exec fuel p m
  | None => None
  end.

(** ** Properties of compiler states and of emitted text *)

Fixpoint count_char (c : ascii) (s : string) : Z :=
  match s with
  | EmptyString => 0
  | String c' rest => (if Ascii.eqb c' c then 1 else 0) + count_char c rest
  end.

(** Where the head stands after the text, by counting the moves. *)
Definition simulated_head (code : string) : Z :=
  count_char ">" code - count_char "<" code.

Definition head_sound (c : Compiler) : Prop :=
  current_index c = simulated_head (join (program c)).

(** Bracket matching: the nesting depth never drops below zero and ends
    where it started. *)
Fixpoint depth_scan (code : string) (d : nat) : option nat :=
  match code with
  | EmptyString => Some d
  | String c rest =>
      if Ascii.eqb c "[" then depth_scan rest (S d)
      else if Ascii.eqb c "]" then
        match d with
        | O => None
        | S d' => depth_scan rest d'
        end
      else depth_scan rest d
  end.

Definition balanced (code : string) : Prop := depth_scan code 0 = Some 0%nat.

(** The live cells of section 3: below the high-water mark and not in
    the gap list. *)
Definition live (c : Compiler) (i : Z) : Prop :=
  0 <= i < non_allocated c /\ ~ In i (gaps c).

Definition state_of {A} (r : Compiler * result A) : Compiler := fst r.
Definition outcome {A} (r : Compiler * result A) : result A := snd r.

(** ** A specification logic for the compiler's computations *)

(** [Q] holds after a normal return, [E] after an exception. *)
Definition triple {A} (P : Compiler -> Prop) (m : M A)
  (Q : A -> Compiler -> Prop) (E : exn -> Compiler -> Prop) : Prop :=
  forall c, P c ->
    match m c with
    | (c', Ok a) => Q a c'
    | (c', Raise e) => E e c'
    end.

(** An invariant kept whether the computation returns or raises. *)
Definition preserves {A} (I : Compiler -> Prop) (m : M A) : Prop :=
  triple I m (fun _ => I) (fun _ => I).

(** A computation that leaves the emitter alone keeps every property of
    the emitted text and the predicted head. *)
Definition silent {A} (m : M A) : Prop :=
  forall c, program (fst (m c)) = program c /\
            current_index (fst (m c)) = current_index c.

(** The emitted text has [d] brackets open. *)
Definition depth_is (d : nat) (c : Compiler) : Prop :=
  depth_scan (join (program c)) 0 = Some d.

(** Text that opens and closes no bracket of its surroundings. *)
Definition neutral (code : string) : Prop :=
  forall d, depth_scan code d = Some d.

(** ** The pieces the operations emit *)

(** The compiler after emitting [pieces] and moving the predicted head
    to [index]. *)
Definition emit_at (c : Compiler) (pieces : list string) (index : Z) : Compiler :=
  mkCompiler (program c ++ pieces) index (non_allocated c) (gaps c)
             (variables c) (functions c).

(** What [allocate] returns and the compiler it leaves. *)
Definition next_cell (c : Compiler) : Z :=
  match gaps c with
  | g :: _ => g
  | [] => non_allocated c
  end.

Definition after_allocate (c : Compiler) : Compiler :=
  match gaps c with
  | _ :: _ => c
  | [] => mkCompiler (program c) (current_index c) (non_allocated c + 1)
                     (gaps c) (variables c) (functions c)
  end.

(** What [goto] emits to get from one cell to another. *)
Definition moves (from to : Z) : string :=
  if from <? to
  then repeat_string ">" (Z.to_nat (to - from))
  else repeat_string "<" (Z.to_nat (from - to)).

(** The pieces the [for target in targets] loop of [move_cell] emits. *)
Fixpoint targets_pieces (from : Z) (targets : list Z) (plus : string) : list string :=
  match targets with
  | [] => []
  | d :: ts => moves from d :: plus :: targets_pieces d ts plus
  end.

Definition move_cell_pieces (from source : Z) (targets : list Z) (k : Z) : list string :=
  [moves from source; "["; "-"]
    ++ targets_pieces source targets (repeat_string "+" (Z.to_nat k))
    ++ [moves (List.last targets source) source; "]"].

(** The pieces [!] emits for an operand in cell [p] and a result in
    cell [y]. *)
Definition nnot_pieces (from p y : Z) : list string :=
  [moves from y; "[-]+"; moves y p]
    ++ "[" :: ["[-]"; moves p y; "-"; moves y p] ++ ["]"].

(** The program [byte x; x += A; x *= B; write(x);] as the body of
    [main], and the pieces its compilation emits. *)
Definition multiply_main (A B : Z) : callable :=
  Function []
    (mkCode [Declaration ByteType "x";
             FunctionCall "+=" [Get "x"; Literal A];
             FunctionCall "*=" [Get "x"; Literal B];
             FunctionCall "write" [Get "x"]])
    None.

Definition multiply_pieces (A B : Z) : list string :=
  [moves 0 0; repeat_string "+" (Z.to_nat A)]
    ++ move_cell_pieces 0 0 [1] B
    ++ move_cell_pieces 0 1 [0] 1
    ++ [moves 1 0; "."].

(** ** Running the pieces *)

(** Termination with a result: some amount of fuel is enough. *)
Definition runs (p : list instr) (m m' : machine) : Prop :=
  exists fuel, exec fuel p m = Some m'.

Definition basic (i : instr) : bool :=
  match i with
  | ILoop _ => false
  | _ => true
  end.

(** Loop-free instructions, one after the other. *)
Definition steps (p : list instr) (m : machine) : machine :=
  fold_left (fun m i => step i m) p m.

(** A piece of text that reads as the instructions [p] wherever it
    stands. *)
Definition straight (code : string) (p : list instr) : Prop :=
  forall cur stack, scan code cur stack = Some ((List.rev p ++ cur)%list, stack).

(** The instructions the pieces above read as. *)
Definition moves_instrs (from to : Z) : list instr :=
  if from <? to
  then repeat IRight (Z.to_nat (to - from))
  else repeat ILeft (Z.to_nat (from - to)).

Fixpoint targets_instrs (from : Z) (targets : list Z) (k : nat) : list instr :=
  match targets with
  | [] => []
  | d :: ts => moves_instrs from d ++ repeat IInc k ++ targets_instrs d ts k
  end.

Definition move_body (source : Z) (targets : list Z) (k : nat) : list instr :=
  IDec :: targets_instrs source targets k
       ++ moves_instrs (List.last targets source) source.

Definition move_cell_instrs (from source : Z) (targets : list Z) (k : nat) : list instr :=
  moves_instrs from source ++ [ILoop (move_body source targets k)].

Definition nnot_body (p y : Z) : list instr :=
  [ILoop [IDec]] ++ moves_instrs p y ++ [IDec] ++ moves_instrs y p.

Definition nnot_instrs (from p y : Z) : list instr :=
  (moves_instrs from y ++ [ILoop [IDec]; IInc] ++ moves_instrs y p)
    ++ [ILoop (nnot_body p y)].

Definition multiply_instrs (A B : Z) : list instr :=
  (moves_instrs 0 0 ++ repeat IInc (Z.to_nat A))
    ++ move_cell_instrs 0 0 [1] (Z.to_nat B)
    ++ move_cell_instrs 0 1 [0] (Z.to_nat 1)
    ++ (moves_instrs 1 0 ++ [IOut]).

(** ** Tapes *)

(** Every cell of the tape holds a byte. *)
Definition bytes (t : Z -> Z) : Prop := forall i, 0 <= t i < 256.

(** Adding [k] to the cell [d], modulo 256, and to each cell of a list
    in turn. *)
Definition cell_add (t : Z -> Z) (d k : Z) : Z -> Z :=
  update t d ((t d + k) mod 256).

Definition add_all (targets : list Z) (k : Z) (t : Z -> Z) : Z -> Z :=
  fold_left (fun t d => cell_add t d k) targets t.

(** How often the cell [i] is named in a list of targets. *)
Definition occurrences (targets : list Z) (i : Z) : Z :=
  Z.of_nat (count_occ Z.eq_dec targets i).

(** The machine [m'] stands at [h] with tape [T] (cell by cell), input
    [inp] and output [out]. *)
Definition is_machine (m' : machine) (T : Z -> Z) (h : Z) (inp out : list Z) : Prop :=
  head m' = h /\ (forall i, tape m' i = T i) /\ input m' = inp /\ output m' = out.

(** Two machines that agree cell by cell. *)
Definition similar (m d : machine) : Prop :=
  is_machine m (tape d) (head d) (input d) (output d).

(** Running [p] from any machine like [d] ends in a machine like [d']. *)
Definition goes (p : list instr) (d d' : machine) : Prop :=
  bytes (tape d) ->
  forall m, similar m d ->
            exists m', runs p m m' /\ similar m' d' /\ bytes (tape d').

(** ** The pieces of the comparison *)

(** The subtraction loop of [==], standing on [y], counting [x] down,
    and the instructions it reads as. *)
Definition sub_pieces (from x y : Z) : list string :=
  [moves from y] ++ "[" :: ["-"; moves y x; "-"; moves x y] ++ ["]"].

Definition sub_body (x y : Z) : list instr :=
  IDec :: moves_instrs y x ++ [IDec] ++ moves_instrs x y.

Definition sub_instrs (from x y : Z) : list instr :=
  moves_instrs from y ++ [ILoop (sub_body x y)].


(** ** Hashes of type objects *)

(** [__hash__] of the four type classes.  [hash] of the small integers
    they return is the integer itself. *)
Fixpoint type_hash (t : pytype) : Z :=
  match t with
  | ByteType => 0
  | ListType t' _ => type_hash t' + 1
  | VirtualIntegerType => 1000
  | VirtualListType => 100
  end.

(** Whether a type object is, or is a list type over, the virtual
    integer type. *)
Fixpoint mentions_virtual_integer (t : pytype) : bool :=
  match t with
  | VirtualIntegerType => true
  | ListType t' _ => mentions_virtual_integer t'
  | _ => false
  end.


(** ** What compilation leaves alone *)

(** The compiler [c'] has the function table of [c] and a program that
    starts with the program of [c]. *)
Definition extends (c c' : Compiler) : Prop :=
  functions c' = functions c /\
  exists pieces, program c' = (program c ++ pieces)%list.

Definition grows {A} (m : M A) : Prop := forall c, extends c (fst (m c)).

(** The program [write(read());] as the body of [main]. *)
Definition echo_main : callable :=
  Function [] (mkCode [FunctionCall "write" [FunctionCall "read" []]]) None.


(** * Proofs *)

(** ** Strings *)

Lemma append_cons (a : ascii) (s t : string) :
  String a s +:+ t = String a (s +:+ t).
Proof. reflexivity. Qed.

Lemma append_empty_l (s : string) : "" +:+ s = s.
Proof. reflexivity. Qed.

Lemma append_empty_r (s : string) : s +:+ "" = s.
Proof.
  induction s as [|a s IH]; [reflexivity | now rewrite append_cons, IH].
Qed.

Lemma append_assoc' (a b c : string) : (a +:+ b) +:+ c = a +:+ (b +:+ c).
Proof.
  induction a as [|x a IH]; [reflexivity | now rewrite !append_cons, IH].
Qed.

Lemma join_app (l1 l2 : list string) : join (l1 ++ l2) = join l1 +:+ join l2.
Proof.
  induction l1 as [|p l1 IH]; cbn [join app]; [reflexivity|].
  now rewrite IH, append_assoc'.
Qed.

Lemma join_snoc (l : list string) (s : string) : join (l ++ [s]) = join l +:+ s.
Proof. rewrite join_app. cbn [join]. now rewrite append_empty_r. Qed.

Lemma count_char_app (c : ascii) (a b : string) :
  count_char c (a +:+ b) = count_char c a + count_char c b.
Proof.
  induction a as [|x a IH]; [reflexivity|].
  rewrite append_cons. cbn [count_char]. rewrite IH. lia.
Qed.

Lemma count_char_repeat (c : ascii) (s : string) (n : nat) :
  count_char c (repeat_string s n) = Z.of_nat n * count_char c s.
Proof.
  induction n as [|n IH]; [reflexivity|].
  cbn [repeat_string]. rewrite count_char_app, IH. lia.
Qed.

Lemma simulated_head_app (a b : string) :
  simulated_head (a +:+ b) = simulated_head a + simulated_head b.
Proof. unfold simulated_head. rewrite !count_char_app. lia. Qed.

Lemma simulated_head_repeat (s : string) (n : nat) :
  simulated_head (repeat_string s n) = Z.of_nat n * simulated_head s.
Proof. unfold simulated_head. rewrite !count_char_repeat. lia. Qed.

(** ** The rules of the specification logic *)

Lemma triple_bind {A B} (P : Compiler -> Prop) (m : M A) Q (k : A -> M B) R E :
  triple P m Q E -> (forall a, triple (Q a) (k a) R E) -> triple P (bind m k) R E.
Proof.
  intros Hm Hk c Hc. unfold bind. specialize (Hm c Hc).
  destruct (m c) as [c' [a|e]]; [apply (Hk a c' Hm) | exact Hm].
Qed.

Lemma triple_ret {A} (P : Compiler -> Prop) (a : A) (Q : A -> Compiler -> Prop) E :
  (forall c, P c -> Q a c) -> triple P (ret a) Q E.
Proof. intros H c Hc. simpl. auto. Qed.

Lemma triple_raise {A} (P : Compiler -> Prop) e (Q : A -> Compiler -> Prop)
  (E : exn -> Compiler -> Prop) :
  (forall c, P c -> E e c) -> triple P (raise e) Q E.
Proof. intros H c Hc. simpl. auto. Qed.

Lemma triple_weaken {A} (P P' : Compiler -> Prop) (m : M A) Q Q' E E' :
  triple P' m Q' E' ->
  (forall c, P c -> P' c) ->
  (forall a c, Q' a c -> Q a c) ->
  (forall e c, E' e c -> E e c) ->
  triple P m Q E.
Proof.
  intros H HP HQ HE c Hc. specialize (H c (HP c Hc)).
  destruct (m c) as [c' [a|e]]; auto.
Qed.

Lemma triple_fact {A} (P : Compiler -> Prop) (F : Prop) (m : M A) Q E :
  (F -> triple P m Q E) -> triple (fun c => P c /\ F) m Q E.
Proof. intros H c [Hc HF]. apply (H HF c Hc). Qed.

Lemma triple_for_each {A} (I : Compiler -> Prop) (l : list A) (body : A -> M unit) E :
  (forall x, triple I (body x) (fun _ => I) E) ->
  triple I (for_each l body) (fun _ => I) E.
Proof.
  intros Hb. induction l as [|x l IH]; simpl.
  - apply triple_ret; auto.
  - eapply triple_bind; [apply Hb | intros ?; exact IH].
Qed.

Lemma triple_map_M {A B} (I : Compiler -> Prop) (f : A -> M B) (l : list A) E :
  (forall x, triple I (f x) (fun _ => I) E) ->
  triple I (map_M f l) (fun _ => I) E.
Proof.
  intros Hf. induction l as [|x l IH]; simpl.
  - apply triple_ret; auto.
  - eapply triple_bind; [apply Hf | intros y].
    eapply triple_bind; [exact IH | intros ys]. apply triple_ret; auto.
Qed.

Lemma silent_triple {A} (I : Compiler -> Prop) (m : M A) E' :
  silent m ->
  (forall c c', program c' = program c -> current_index c' = current_index c ->
                I c -> I c') ->
  (forall e c, I c -> E' e c) ->
  triple I m (fun _ => I) E'.
Proof.
  intros Hs HI HE c Hc. destruct (Hs c) as [Hp Hi].
  destruct (m c) as [c' [a|e]]; simpl in *; eauto.
Qed.

Lemma silent_pointer_of v : silent (pointer_of v).
Proof. intros c. destruct v; simpl; auto. Qed.
Lemma silent_value_of v : silent (value_of v).
Proof. intros c. destruct v; simpl; auto. Qed.
Lemma silent_type_of v : silent (type_of v).
Proof. intros c. destruct v as [| | |[]| | | |]; simpl; auto. Qed.
Lemma silent_values_of v : silent (values_of v).
Proof. intros c. destruct v; simpl; auto. Qed.
Lemma silent_str_mul s v : silent (str_mul s v).
Proof. intros c. destruct v; simpl; auto. Qed.
Lemma silent_allocate : silent allocate.
Proof. intros c. unfold allocate. destruct (gaps c); simpl; auto. Qed.
Lemma silent_free_cell i : silent (free_cell i).
Proof. intros c. unfold free_cell. destruct (_ =? _); simpl; auto. Qed.
Lemma silent_lookup_function n ts : silent (lookup_function n ts).
Proof.
  intros c. unfold lookup_function.
  destruct (find _ _) as [[k f]|]; simpl; auto.
Qed.
Lemma silent_get_variable n : silent (get_variable n).
Proof.
  intros c. unfold get_variable.
  destruct (variables c) as [vars|]; simpl; auto.
  destruct (vars !! n); simpl; auto.
Qed.
Lemma silent_set_variable n v : silent (set_variable n v).
Proof.
  intros c. unfold set_variable. destruct (variables c); simpl; auto.
Qed.
Lemma silent_set_variables vars : silent (set_variables vars).
Proof. intros c. simpl. auto. Qed.
Lemma silent_getitem vs i : silent (getitem vs i).
Proof.
  intros c. unfold getitem. destruct (_ && _); simpl; auto.
  destruct (nth_error _ _); simpl; auto.
Qed.
Lemma silent_free v : silent (free v).
Proof. destruct v; try (intros c; simpl; auto). apply silent_free_cell. Qed.
Lemma silent_new t : silent (new t).
Proof.
  destruct t; try (intros c; simpl; auto).
  unfold bind. destruct (silent_allocate c) as [H1 H2].
  destruct (allocate c) as [c' [a|e]]; simpl in *; auto.
Qed.

Create HintDb silent_ops.
#[local] Hint Resolve silent_pointer_of silent_value_of silent_type_of
  silent_values_of silent_str_mul silent_allocate silent_free_cell
  silent_lookup_function silent_get_variable silent_set_variable
  silent_set_variables silent_getitem silent_free silent_new : silent_ops.

(** ** Head prediction *)

Lemma head_silent {A} (m : M A) :
  silent m -> triple head_sound m (fun _ => head_sound) (fun _ => head_sound).
Proof.
  intros Hs. apply silent_triple; auto.
  unfold head_sound. intros c c' Hp Hi H. now rewrite Hp, Hi.
Qed.

Lemma head_execute (code : string) :
  simulated_head code = 0 ->
  triple head_sound (execute code) (fun _ => head_sound) (fun _ => head_sound).
Proof.
  intros Hn c Hc. unfold head_sound in *. simpl.
  rewrite join_snoc, simulated_head_app. lia.
Qed.

Lemma goto_state (k : Z) (c : Compiler) :
  goto k c =
  (mkCompiler
     (program c ++
        [if current_index c <? k
         then repeat_string ">" (Z.to_nat (k - current_index c))
         else repeat_string "<" (Z.to_nat (current_index c - k))])
     k (non_allocated c) (gaps c) (variables c) (functions c), Ok tt).
Proof. unfold goto. destruct (current_index c <? k); reflexivity. Qed.

Lemma head_goto (k : Z) :
  triple head_sound (goto k) (fun _ => head_sound) (fun _ => head_sound).
Proof.
  intros c Hc. rewrite goto_state. unfold head_sound in *. simpl.
  rewrite join_snoc, simulated_head_app, <- Hc.
  destruct (Z.ltb_spec (current_index c) k);
    rewrite simulated_head_repeat; unfold simulated_head; simpl; lia.
Qed.

Lemma head_str_mul (s : string) (v : value) :
  simulated_head s = 0 ->
  triple head_sound (str_mul s v)
         (fun code c => head_sound c /\ simulated_head code = 0)
         (fun _ => head_sound).
Proof.
  intros Hs c Hc. destruct v; simpl; auto.
  split; [assumption|]. rewrite simulated_head_repeat. lia.
Qed.

Lemma loop_unfold (body : M unit) (c : Compiler) :
  loop body c =
  (execute "[" ;;; body ;;; execute "]" ;;;
   (fun c' => if negb (current_index c =? current_index c')
              then raise (Exception "unbalanced loop") c'
              else ret tt c')) c.
Proof. reflexivity. Qed.

Lemma silent_check (save : Z) :
  silent (fun c' => if negb (save =? current_index c')
                    then raise (Exception "unbalanced loop") c'
                    else @ret unit tt c').
Proof. intros c. destruct (negb _); simpl; auto. Qed.

Lemma head_loop (body : M unit) :
  triple head_sound body (fun _ => head_sound) (fun _ => head_sound) ->
  triple head_sound (loop body) (fun _ => head_sound) (fun _ => head_sound).
Proof.
  intros Hb c Hc. rewrite loop_unfold.
  generalize (current_index c) at 1. intros save. revert c Hc.
  change (triple head_sound
            (execute "[" ;;; body ;;; execute "]" ;;;
             (fun c' => if negb (save =? current_index c')
                        then raise (Exception "unbalanced loop") c'
                        else ret tt c'))
            (fun _ => head_sound) (fun _ => head_sound)).
  eapply triple_bind; [apply head_execute; reflexivity | intros ?].
  eapply triple_bind; [exact Hb | intros ?].
  eapply triple_bind; [apply head_execute; reflexivity | intros ?].
  apply head_silent, silent_check.
Qed.

Create HintDb head_ops.

Ltac head_tac :=
  lazymatch goal with
  | |- triple _ (ret _) _ _ => apply triple_ret; intros; auto
  | |- triple _ (raise _) _ _ => apply triple_raise; intros; auto
  | |- triple (fun c => _ /\ _) _ _ _ => apply triple_fact; intros ?; head_tac
  | |- triple _ (bind _ _) _ _ =>
      eapply triple_bind; [ head_tac | intros ?; cbv beta; head_tac ]
  | |- triple _ (loop _) _ _ => apply head_loop; head_tac
  | |- triple _ (for_each _ _) _ _ => apply triple_for_each; intros ?; head_tac
  | |- triple _ (goto _) _ _ => apply head_goto
  | |- triple _ (execute _) _ _ =>
      apply head_execute; (reflexivity || assumption)
  | |- triple _ (str_mul _ _) _ _ => apply head_str_mul; reflexivity
  | |- triple _ (match ?r with Some _ => _ | None => _ end) _ _ =>
      destruct r; head_tac
  | H : forall n, triple _ (?ev n) _ _ |- triple _ (?ev _) _ _ => apply H
  | |- triple _ _ _ _ =>
      first [ eassumption
            | solve [eauto with head_ops]
            | apply head_silent; solve [auto with silent_ops] ]
  end.

Lemma head_move_cell (source : Z) (targets : list Z) (multiplier : value) :
  triple head_sound (move_cell source targets multiplier)
         (fun _ => head_sound) (fun _ => head_sound).
Proof. unfold move_cell. head_tac. Qed.
#[local] Hint Resolve head_move_cell : head_ops.

Lemma head_Byte_copy (self : value) :
  triple head_sound (Byte_copy self) (fun _ => head_sound) (fun _ => head_sound).
Proof. unfold Byte_copy. head_tac. Qed.

Lemma head_copy (v : value) :
  triple head_sound (copy v) (fun _ => head_sound) (fun _ => head_sound).
Proof. destruct v; simpl; try head_tac. apply head_Byte_copy. Qed.
#[local] Hint Resolve head_copy : head_ops.

Lemma head_call_builtin (func : builtin) (args : list value) :
  triple head_sound (call_builtin func args)
         (fun _ => head_sound) (fun _ => head_sound).
Proof.
  destruct func; destruct args as [|x [|y [|z args]]]; cbn [call_builtin];
    try (apply triple_raise; auto);
    unfold Intrinsic.assign, Intrinsic.assign_virtual, Intrinsic.succ, Intrinsic.pred, Intrinsic.iadd, Intrinsic.iadd_virtual,
      Intrinsic.isub, Intrinsic.isub_virtual, Intrinsic.imul, Intrinsic.imul_virtual, Intrinsic.nnot, Intrinsic.eq, Intrinsic.read, Intrinsic.write;
    head_tac.
Qed.
#[local] Hint Resolve head_call_builtin : head_ops.

Lemma head_Code_execute (ev : node -> M value) (code : Code) :
  (forall n, triple head_sound (ev n) (fun _ => head_sound) (fun _ => head_sound)) ->
  triple head_sound (Code_execute ev code)
         (fun _ => head_sound) (fun _ => head_sound).
Proof. intros Hev. destruct code as [sts]. cbn [Code_execute]. head_tac. Qed.

Lemma head_call (ev : node -> M value) (f : callable) (args : list value) :
  (forall n, triple head_sound (ev n) (fun _ => head_sound) (fun _ => head_sound)) ->
  triple head_sound (call ev f args) (fun _ => head_sound) (fun _ => head_sound).
Proof.
  intros Hev. destruct f as [func|names code rexpr]; cbn [call].
  - apply head_call_builtin.
  - pose proof (head_Code_execute ev code Hev). head_tac.
Qed.

Lemma head_evaluate (fuel : nat) (n : node) :
  triple head_sound (evaluate fuel n) (fun _ => head_sound) (fun _ => head_sound).
Proof.
  revert n. induction fuel as [|fuel IH]; intros n; cbn [evaluate].
  - apply triple_raise; auto.
  - assert (Hcode : forall code, triple head_sound (Code_execute (evaluate fuel) code)
                                     (fun _ => head_sound) (fun _ => head_sound))
      by (intros code; apply head_Code_execute, IH).
    assert (Hcall : forall f args, triple head_sound (call (evaluate fuel) f args)
                                     (fun _ => head_sound) (fun _ => head_sound))
      by (intros f args; apply head_call, IH).
    assert (Hmap : forall l, triple head_sound (map_M (evaluate fuel) l)
                                     (fun _ => head_sound) (fun _ => head_sound))
      by (intros l; apply triple_map_M, IH).
    assert (Htypes : forall l, triple head_sound (map_M type_of l)
                                     (fun _ => head_sound) (fun _ => head_sound))
      by (intros l; apply triple_map_M; intros ?; head_tac).
    destruct n; head_tac.
Qed.

(** C1. Head prediction soundness: from a compiler whose recorded head
    equals the head obtained by counting the moves of the text emitted so
    far, [goto], [move_cell], [loop] around a body that keeps the property,
    every registered intrinsic on any arguments and every [evaluate] leave
    a compiler with the same property, whether they return or raise; and
    after [goto k] the recorded head is [k]. *)
Theorem head_prediction_sound (c : Compiler) :
  head_sound c ->
  (forall k, head_sound (state_of (goto k c)) /\
             current_index (state_of (goto k c)) = k) /\
  (forall source targets multiplier,
      head_sound (state_of (move_cell source targets multiplier c))) /\
  (forall body, preserves head_sound body ->
                head_sound (state_of (loop body c))) /\
  (forall func args, head_sound (state_of (call_builtin func args c))) /\
  (forall fuel n, head_sound (state_of (evaluate fuel n c))).
Proof.
  intros Hc.
  assert (use : forall A (m : M A),
             triple head_sound m (fun _ => head_sound) (fun _ => head_sound) ->
             head_sound (state_of (m c))).
  { intros A m Hm. specialize (Hm c Hc). unfold state_of.
    destruct (m c) as [c' [a|e]]; exact Hm. }
  repeat split.
  - apply use, head_goto.
  - rewrite goto_state. reflexivity.
  - intros. apply use, head_move_cell.
  - intros body Hb. apply use, head_loop, Hb.
  - intros. apply use, head_call_builtin.
  - intros. apply use, head_evaluate.
Qed.

Lemma head_prediction_sound_witness :
  head_sound compiler /\
  current_index (state_of (goto 3 compiler)) = 3 /\
  head_sound (state_of (loop (execute "-") compiler)).
Proof.
  assert (H0 : head_sound compiler) by reflexivity.
  destruct (head_prediction_sound compiler H0) as (Hg & _ & Hl & _).
  split; [exact H0|]. split; [apply (Hg 3)|].
  apply Hl. apply head_execute. reflexivity.
Defined.

(** ** What the emitter operations compute *)

Lemma emit_at_emit_at (c : Compiler) l1 i l2 j :
  emit_at (emit_at c l1 i) l2 j = emit_at c (l1 ++ l2) j.
Proof. unfold emit_at. simpl. now rewrite <- app_assoc. Qed.

Lemma current_index_emit_at (c : Compiler) l i :
  current_index (emit_at c l i) = i.
Proof. reflexivity. Qed.

Lemma emit_at_nil (c : Compiler) : emit_at c [] (current_index c) = c.
Proof. destruct c. unfold emit_at. simpl. now rewrite app_nil_r. Qed.

Lemma execute_emit (code : string) (c : Compiler) :
  execute code c = (emit_at c [code] (current_index c), Ok tt).
Proof. reflexivity. Qed.

Lemma goto_emit (k : Z) (c : Compiler) :
  goto k c = (emit_at c [moves (current_index c) k] k, Ok tt).
Proof.
  rewrite goto_state. unfold emit_at, moves.
  now destruct (current_index c <? k).
Qed.

Lemma loop_emit (body : M unit) (c : Compiler) (pieces : list string) :
  body (emit_at c ["["] (current_index c))
  = (emit_at c ("[" :: pieces) (current_index c), Ok tt) ->
  loop body c = (emit_at c ("[" :: pieces ++ ["]"]) (current_index c), Ok tt).
Proof.
  intros Hb. rewrite loop_unfold. unfold bind at 1. rewrite execute_emit.
  unfold bind at 1. rewrite Hb. unfold bind. rewrite execute_emit.
  rewrite emit_at_emit_at. cbn [emit_at current_index].
  rewrite Z.eqb_refl. reflexivity.
Qed.

Lemma last_cons_default (ts : list Z) (d e : Z) :
  List.last (d :: ts) e = List.last ts d.
Proof.
  revert d e. induction ts as [|x ts IH]; intros d e; [reflexivity|].
  change (List.last (d :: x :: ts) e) with (List.last (x :: ts) e).
  change (List.last (x :: ts) d) with (List.last (x :: ts) d).
  rewrite !IH. reflexivity.
Qed.

Lemma for_each_targets_emit (targets : list Z) (k : Z) (c : Compiler) :
  for_each targets
    (fun target => goto target ;;;
                   code <- str_mul "+" (PyInt k) ;; execute code) c
  = (emit_at c (targets_pieces (current_index c) targets
                               (repeat_string "+" (Z.to_nat k)))
             (List.last targets (current_index c)), Ok tt).
Proof.
  revert c. induction targets as [|d ts IH]; intros c.
  - cbn [for_each targets_pieces List.last]. now rewrite emit_at_nil.
  - cbn [for_each targets_pieces]. unfold bind at 1. unfold bind at 1.
    rewrite goto_emit. unfold bind at 1. cbn [str_mul ret].
    rewrite execute_emit, emit_at_emit_at. cbn [emit_at current_index].
    rewrite IH. rewrite emit_at_emit_at. cbn [emit_at current_index app].
    now rewrite last_cons_default.
Qed.

Lemma move_cell_emit (source : Z) (targets : list Z) (k : Z) (c : Compiler) :
  move_cell source targets (PyInt k) c
  = (emit_at c (move_cell_pieces (current_index c) source targets k) source, Ok tt).
Proof.
  unfold move_cell. unfold bind at 1. rewrite goto_emit.
  rewrite (loop_emit _ _
             ("-" :: targets_pieces source targets (repeat_string "+" (Z.to_nat k))
                  ++ [moves (List.last targets source) source])).
  - rewrite emit_at_emit_at. cbn [emit_at current_index].
    unfold move_cell_pieces. cbn [app]. now rewrite <- app_assoc.
  - unfold bind at 1. rewrite execute_emit, emit_at_emit_at.
    cbn [emit_at current_index]. unfold bind at 1.
    rewrite for_each_targets_emit. rewrite emit_at_emit_at. rewrite goto_emit.
    rewrite emit_at_emit_at. cbn [emit_at current_index app].
    reflexivity.
Qed.

Lemma bind_ok {A B} (m : M A) (k : A -> M B) (c c' : Compiler) (a : A) :
  m c = (c', Ok a) -> bind m k c = k a c'.
Proof. intros H. unfold bind. now rewrite H. Qed.

Lemma bind_raise {A B} (m : M A) (k : A -> M B) (c c' : Compiler) (e : exn) :
  m c = (c', Raise e) -> bind m k c = (c', Raise e).
Proof. intros H. unfold bind. now rewrite H. Qed.

(** One step of symbolic execution of a computation applied to a state. *)
Ltac sym_step :=
  erewrite bind_ok
    by first [ apply goto_emit | apply execute_emit | apply move_cell_emit
             | reflexivity ].

(** ** The allocator *)

(** C2. Allocator correctness fails on the code: with a gap at hand
    [allocate] returns the first gap and leaves the compiler as it was,
    the gap list included.  After two allocations and the release of
    cell 0, the next two allocations both return cell 0, and the gap list
    still holds it. *)
Theorem allocate_hands_out_a_gap_twice :
  (forall prog index n g rest vars funs,
      allocate (mkCompiler prog index n (g :: rest) vars funs)
      = (mkCompiler prog index n (g :: rest) vars funs, Ok g)) /\
  (a <- allocate ;; b <- allocate ;; free_cell a ;;;
   x <- allocate ;; y <- allocate ;;
   (fun c => (c, Ok (a, b, x, y, gaps c)))) compiler
  = (mkCompiler [] 0 2 [0] None intrinsics, Ok (0, 1, 0, 0, [0])).
Proof. split; reflexivity. Qed.

(** ** Type equality *)

(** C9. Type equality fails on the code for the virtual integer type:
    [VirtualIntegerType.__eq__] answers [False] for every type object,
    the virtual integer type itself included, and [True] only for a
    [VirtualInteger] value. *)
Theorem virtual_integer_type_differs_from_itself :
  type_eq VirtualIntegerType (PyType VirtualIntegerType) = false /\
  (forall other : pytype, type_eq VirtualIntegerType (PyType other) = false) /\
  (forall t v, type_eq VirtualIntegerType (VirtualInteger t v) = true) /\
  type_eq ByteType (PyType ByteType) = true /\
  type_eq VirtualListType (PyType VirtualListType) = true.
Proof. repeat split. Qed.

(** ** Intrinsics that cannot do what the table says *)

(** C7. The [-=] intrinsic on two bytes raises [NameError] on every pair
    of operands and emits nothing, also when reached through the table. *)
Theorem isub_raises_name_error (x y : value) (c : Compiler) :
  Intrinsic.isub x y c = (c, Raise (NameError "self")) /\
  call_builtin isub [x; y] c = (c, Raise (NameError "self")) /\
  (lookup_function "-=" [ByteType; ByteType] compiler
   = (compiler, Ok (BuiltinFunction isub))).
Proof. repeat split. Qed.

(** C8. [Byte.copy] raises [TypeError] on every byte: the two moves are
    emitted, the second auxiliary cell is released, and the constructor
    call that should build the result fails. *)
Theorem Byte_copy_raises_type_error (t : pytype) (p : Z) (c : Compiler) :
  exists c',
    copy (Byte t p) c
    = (c', Raise (TypeError "__init__() missing 1 required positional argument: 'pointer'")).
Proof.
  cbn [copy]. unfold Byte_copy.
  destruct (allocate c) as [c1 [a1|e1]] eqn:E1.
  2:{ unfold allocate in E1. destruct (gaps c); discriminate. }
  destruct (allocate c1) as [c2 [a2|e2]] eqn:E2.
  2:{ unfold allocate in E2. destruct (gaps c1); discriminate. }
  rewrite (bind_ok _ _ _ _ _ E1), (bind_ok _ _ _ _ _ E2).
  do 4 sym_step.
  destruct (free_cell a2 (emit_at
     (emit_at c2 (move_cell_pieces (current_index c2) p [a1; a2] 1) p)
     (move_cell_pieces (current_index (emit_at c2
        (move_cell_pieces (current_index c2) p [a1; a2] 1) p)) a2 [p] 1) a2))
    as [c3 [[]|e3]] eqn:E3.
  - rewrite (bind_ok _ _ _ _ _ E3). eexists. reflexivity.
  - unfold free_cell in E3. destruct (_ =? _); discriminate.
Qed.

(** C6. The [=] intrinsic on two bytes does not free its source: it
    leaves the allocator exactly as it found it, on every pair of
    operands.  At bytes in cells 0 and 1 it returns [None] after emitting
    the zeroing and the move, and cell 1 is still live; [+=], its
    sibling, releases cell 1 there. *)
Theorem assign_does_not_free_source :
  (forall x y c,
      non_allocated (state_of (Intrinsic.assign x y c)) = non_allocated c /\
      gaps (state_of (Intrinsic.assign x y c)) = gaps c) /\
  (let c := mkCompiler [] 0 2 [] None intrinsics in
   Intrinsic.assign (Byte ByteType 0) (Byte ByteType 1) c
   = (mkCompiler [""; "[-]"; ">"; "["; "-"; "<"; "+"; ">"; "]"] 1 2 [] None intrinsics,
      Ok PyNone)) /\
  (let c := mkCompiler [] 0 2 [] None intrinsics in
   non_allocated (state_of (Intrinsic.iadd (Byte ByteType 0) (Byte ByteType 1) c)) = 1).
Proof.
  split; [|split; reflexivity].
  intros x y c. unfold Intrinsic.assign, state_of.
  destruct x; try (cbn; auto; fail).
  do 3 sym_step.
  destruct y; try (cbn; auto; fail).
  do 3 sym_step. cbn. auto.
Qed.

(** ** The target machine: fuel and sequencing *)

Lemma exec_mono (f f' : nat) (p : list instr) (m m' : machine) :
  exec f p m = Some m' -> (f <= f')%nat -> exec f' p m = Some m'.
Proof.
  revert f' p m m'. induction f as [|f IH]; intros f' p m m' H Hle.
  - discriminate.
  - destruct f' as [|f']; [lia|]. assert (Hle' : (f <= f')%nat) by lia.
    destruct p as [|i rest]; [exact H|].
    destruct i; cbn [exec] in *; try (eapply IH; eassumption).
    destruct (tape m (head m) =? 0); [eapply IH; eassumption|].
    destruct (exec f body m) as [m1|] eqn:E1; [|discriminate].
    rewrite (IH f' body m m1 E1 Hle'). eapply IH; eassumption.
Qed.

Lemma exec_app (f1 f2 : nat) (p1 p2 : list instr) (m m1 m2 : machine) :
  exec f1 p1 m = Some m1 -> exec f2 p2 m1 = Some m2 ->
  exec (f1 + f2) (p1 ++ p2) m = Some m2.
Proof.
  revert p1 m. induction f1 as [|f1 IH]; intros p1 m H1 H2; [discriminate|].
  destruct p1 as [|i rest].
  - injection H1 as ->. eapply exec_mono; [exact H2 | lia].
  - change (S f1 + f2)%nat with (S (f1 + f2)).
    destruct i; cbn [exec app] in *; try (apply IH; assumption).
    destruct (tape m (head m) =? 0); [apply IH; assumption|].
    destruct (exec f1 body m) as [m'|] eqn:E1; [|discriminate].
    rewrite (exec_mono f1 (f1 + f2) body m m' E1) by lia.
    apply (IH (ILoop body :: rest) m' H1 H2).
Qed.

Lemma runs_nil (m : machine) : runs [] m m.
Proof. exists 1%nat. reflexivity. Qed.

Lemma runs_app (p1 p2 : list instr) (m m1 m2 : machine) :
  runs p1 m m1 -> runs p2 m1 m2 -> runs (p1 ++ p2) m m2.
Proof.
  intros [f1 H1] [f2 H2]. exists (f1 + f2)%nat. eapply exec_app; eassumption.
Qed.

Lemma steps_app (p q : list instr) (m : machine) :
  steps (p ++ q) m = steps q (steps p m).
Proof. unfold steps. apply fold_left_app. Qed.

Lemma runs_steps (p : list instr) (m : machine) :
  forallb basic p = true -> runs p m (steps p m).
Proof.
  intros Hb. exists (S (length p)). revert m Hb.
  induction p as [|i p IH]; intros m Hb; [reflexivity|].
  cbn [forallb] in Hb. apply andb_prop in Hb as [Hi Hp].
  cbn [length]. destruct i; try discriminate; cbn [exec steps fold_left];
    apply IH; assumption.
Qed.

Lemma runs_loop_done (body : list instr) (m : machine) :
  tape m (head m) = 0 -> runs [ILoop body] m m.
Proof. intros H. exists 2%nat. cbn [exec]. now rewrite H. Qed.

Lemma runs_loop_once (body : list instr) (m m1 m2 : machine) :
  tape m (head m) <> 0 -> runs body m m1 -> runs [ILoop body] m1 m2 ->
  runs [ILoop body] m m2.
Proof.
  intros Hnz [f1 H1] [f2 H2]. exists (S (f1 + f2)). cbn [exec].
  destruct (Z.eqb_spec (tape m (head m)) 0) as [|_]; [contradiction|].
  rewrite (exec_mono f1 (f1 + f2) body m m1 H1) by lia.
  eapply exec_mono; [exact H2 | lia].
Qed.

(** A loop whose body takes one off the cell under the head runs as many
    times as the cell says. *)
Lemma runs_loop_count (body : list instr) (F : machine -> machine)
  (Inv : machine -> Prop) :
  (forall m, Inv m -> 0 < tape m (head m) ->
             runs body m (F m) /\ Inv (F m) /\
             tape (F m) (head (F m)) = tape m (head m) - 1) ->
  forall n m, Inv m -> tape m (head m) = Z.of_nat n ->
              runs [ILoop body] m (Nat.iter n F m) /\ Inv (Nat.iter n F m).
Proof.
  intros HF. induction n as [|n IH]; intros m Hm Hn.
  - split; [apply runs_loop_done; assumption | exact Hm].
  - destruct (HF m Hm ltac:(lia)) as (Hr & Hi & Hd).
    rewrite Nat.iter_succ_r.
    destruct (IH (F m) Hi ltac:(lia)) as [Hr' Hi'].
    split; [|exact Hi'].
    eapply runs_loop_once; [lia | exact Hr | exact Hr'].
Qed.

(** ** Reading emitted text *)

Lemma scan_app (a b : string) cur stack :
  scan (a +:+ b) cur stack =
  match scan a cur stack with
  | Some (cur', stack') => scan b cur' stack'
  | None => None
  end.
Proof.
  revert cur stack. induction a as [|x a IH]; intros cur stack; [reflexivity|].
  rewrite append_cons. cbn [scan].
  destruct (Ascii.eqb x "["); [apply IH|].
  destruct (Ascii.eqb x "]"); [|apply IH].
  destruct stack; [reflexivity | apply IH].
Qed.

Lemma straight_nil : straight "" [].
Proof. intros cur stack. reflexivity. Qed.

Lemma straight_app (a b : string) (p q : list instr) :
  straight a p -> straight b q -> straight (a +:+ b) (p ++ q).
Proof.
  intros Ha Hb cur stack. rewrite scan_app, Ha, Hb.
  now rewrite rev_app_distr, <- app_assoc.
Qed.

Lemma straight_loop (body : string) (p : list instr) :
  straight body p -> straight ("[" +:+ body +:+ "]") [ILoop p].
Proof.
  intros Hb cur stack. rewrite append_cons, append_empty_l.
  cbn [scan Ascii.eqb Bool.eqb]. rewrite scan_app, Hb.
  cbn [scan Ascii.eqb Bool.eqb List.rev app]. now rewrite app_nil_r, rev_involutive.
Qed.

Lemma straight_repeat (s : string) (i : instr) (n : nat) :
  straight s [i] -> straight (repeat_string s n) (repeat i n).
Proof.
  intros Hs. induction n as [|n IH]; [apply straight_nil|].
  cbn [repeat_string repeat]. apply (straight_app s _ [i]); assumption.
Qed.

Lemma straight_right : straight ">" [IRight].
Proof. intros cur stack. reflexivity. Qed.
Lemma straight_left : straight "<" [ILeft].
Proof. intros cur stack. reflexivity. Qed.
Lemma straight_inc : straight "+" [IInc].
Proof. intros cur stack. reflexivity. Qed.
Lemma straight_dec : straight "-" [IDec].
Proof. intros cur stack. reflexivity. Qed.
Lemma straight_out : straight "." [IOut].
Proof. intros cur stack. reflexivity. Qed.
Lemma straight_zero : straight "[-]" [ILoop [IDec]].
Proof. intros cur stack. reflexivity. Qed.
Lemma straight_one : straight "[-]+" [ILoop [IDec]; IInc].
Proof. intros cur stack. reflexivity. Qed.

Lemma straight_moves (a b : Z) : straight (moves a b) (moves_instrs a b).
Proof.
  unfold moves, moves_instrs. destruct (a <? b);
    apply straight_repeat; [apply straight_right | apply straight_left].
Qed.

Lemma straight_parse (code : string) (p : list instr) :
  straight code p -> parse code = Some p.
Proof.
  intros H. unfold parse. rewrite H, app_nil_r. now rewrite rev_involutive.
Qed.

Lemma straight_targets (from : Z) (targets : list Z) (k : nat) :
  straight (join (targets_pieces from targets (repeat_string "+" k)))
           (targets_instrs from targets k).
Proof.
  revert from. induction targets as [|d ts IH]; intros from.
  - apply straight_nil.
  - cbn [targets_pieces join targets_instrs].
    apply straight_app; [apply straight_moves|].
    apply straight_app; [apply straight_repeat, straight_inc | apply IH].
Qed.

Lemma straight_move_cell (from source : Z) (targets : list Z) (k : Z) :
  straight (join (move_cell_pieces from source targets k))
           (move_cell_instrs from source targets (Z.to_nat k)).
Proof.
  unfold move_cell_pieces, move_cell_instrs.
  cbn [app join]. apply straight_app; [apply straight_moves|].
  rewrite join_app. cbn [join]. rewrite append_empty_r.
  set (tp := join (targets_pieces source targets (repeat_string "+" (Z.to_nat k)))).
  set (mv := moves (List.last targets source) source).
  replace ("[" +:+ "-" +:+ tp +:+ mv +:+ "]")
    with ("[" +:+ (("-" +:+ tp) +:+ mv) +:+ "]")
    by (now rewrite !append_assoc').
  apply straight_loop.
  apply (straight_app _ _ (IDec :: targets_instrs source targets (Z.to_nat k))).
  - apply (straight_app "-" _ [IDec]); [apply straight_dec | apply straight_targets].
  - apply straight_moves.
Qed.

(** ** The target machine: moves and additions *)

Lemma bytes_update (t : Z -> Z) (i v : Z) :
  bytes t -> 0 <= v < 256 -> bytes (update t i v).
Proof. intros Ht Hv j. unfold update. destruct (j =? i); auto. Qed.

Lemma bytes_cell_add (t : Z -> Z) (d k : Z) : bytes t -> bytes (cell_add t d k).
Proof. intros Ht. apply bytes_update; [assumption | apply Z.mod_pos_bound; lia]. Qed.

Lemma bytes_ext (t t' : Z -> Z) : (forall i, t' i = t i) -> bytes t -> bytes t'.
Proof. intros H Ht i. rewrite H. apply Ht. Qed.

Lemma bytes_add_all (targets : list Z) (k : Z) (t : Z -> Z) :
  bytes t -> bytes (add_all targets k t).
Proof.
  revert t. induction targets as [|d ts IH]; intros t Ht; [exact Ht|].
  apply IH, bytes_cell_add, Ht.
Qed.

Lemma add_all_ext (targets : list Z) (k : Z) (t t' : Z -> Z) :
  (forall i, t i = t' i) -> forall i, add_all targets k t i = add_all targets k t' i.
Proof.
  revert t t'. induction targets as [|d ts IH]; intros t t' H i; [apply H|].
  cbn [add_all fold_left]. apply IH. intros j. unfold cell_add, update.
  rewrite (H d). destruct (j =? d); [reflexivity | apply H].
Qed.

Lemma occurrences_cons (d : Z) (ts : list Z) (i : Z) :
  occurrences (d :: ts) i = (if i =? d then 1 else 0) + occurrences ts i.
Proof.
  unfold occurrences. cbn [count_occ].
  destruct (Z.eq_dec d i) as [->|Hne].
  - rewrite Z.eqb_refl. lia.
  - destruct (Z.eqb_spec i d); [congruence | lia].
Qed.

Lemma occurrences_nonneg (ts : list Z) (i : Z) : 0 <= occurrences ts i.
Proof. unfold occurrences. lia. Qed.

Lemma occurrences_not_in (ts : list Z) (i : Z) : ~ In i ts -> occurrences ts i = 0.
Proof.
  intros H. unfold occurrences.
  now rewrite (proj1 (count_occ_not_In Z.eq_dec ts i) H).
Qed.

(** Adding [k] at every target adds, on a tape of bytes, [k] times the
    number of occurrences. *)
Lemma add_all_at (targets : list Z) (k : Z) (t : Z -> Z) (i : Z) :
  bytes t ->
  add_all targets k t i = (t i + occurrences targets i * k) mod 256.
Proof.
  revert t. induction targets as [|d ts IH]; intros t Ht.
  - cbn. rewrite Z.add_0_r, Z.mod_small; [reflexivity | apply Ht].
  - cbn [add_all fold_left]. change (fold_left _ ts ?x) with (add_all ts k x).
    rewrite IH by (apply bytes_cell_add, Ht).
    rewrite occurrences_cons. unfold cell_add, update.
    destruct (i =? d) eqn:E.
    + apply Z.eqb_eq in E. subst d. rewrite Zplus_mod_idemp_l. f_equal. lia.
    + f_equal.
Qed.

Lemma steps_right (n : nat) (m : machine) :
  steps (repeat IRight n) m
  = mkMachine (tape m) (head m + Z.of_nat n) (input m) (output m).
Proof.
  revert m. induction n as [|n IH]; intros m.
  - destruct m. cbn. f_equal. lia.
  - cbn [repeat steps fold_left]. change (fold_left _ ?p ?x) with (steps p x).
    rewrite IH. cbn. f_equal. lia.
Qed.

Lemma steps_left (n : nat) (m : machine) :
  steps (repeat ILeft n) m
  = mkMachine (tape m) (head m - Z.of_nat n) (input m) (output m).
Proof.
  revert m. induction n as [|n IH]; intros m.
  - destruct m. cbn. f_equal. lia.
  - cbn [repeat steps fold_left]. change (fold_left _ ?p ?x) with (steps p x).
    rewrite IH. cbn. f_equal. lia.
Qed.

Lemma steps_moves (a b : Z) (m : machine) :
  head m = a ->
  steps (moves_instrs a b) m = mkMachine (tape m) b (input m) (output m).
Proof.
  intros Ha. unfold moves_instrs.
  destruct (Z.ltb_spec a b); [rewrite steps_right | rewrite steps_left];
    f_equal; lia.
Qed.

Lemma steps_incs (n : nat) (m : machine) :
  bytes (tape m) ->
  is_machine (steps (repeat IInc n) m)
             (cell_add (tape m) (head m) (Z.of_nat n)) (head m) (input m) (output m).
Proof.
  revert m. induction n as [|n IH]; intros m Hb.
  - repeat split. intros i. cbn. unfold cell_add, update.
    destruct (Z.eqb_spec i (head m)) as [->|]; [|reflexivity].
    rewrite Z.add_0_r, Z.mod_small; [reflexivity | apply Hb].
  - cbn [repeat steps fold_left]. change (fold_left _ ?p ?x) with (steps p x).
    destruct (IH (step IInc m)) as (Hh & Ht & Hi & Ho).
    { cbn. apply bytes_update; [assumption | apply Z.mod_pos_bound; lia]. }
    repeat split; try assumption.
    intros i. rewrite Ht. cbn. unfold cell_add, update.
    rewrite Z.eqb_refl. destruct (i =? head m); [|reflexivity].
    rewrite Zplus_mod_idemp_l. f_equal. lia.
Qed.

Lemma basic_repeat (i : instr) (n : nat) :
  basic i = true -> forallb basic (repeat i n) = true.
Proof. intros H. induction n; cbn; [reflexivity | now rewrite H]. Qed.

Lemma basic_moves (a b : Z) : forallb basic (moves_instrs a b) = true.
Proof. unfold moves_instrs. destruct (a <? b); now apply basic_repeat. Qed.

Lemma basic_targets (from : Z) (targets : list Z) (k : nat) :
  forallb basic (targets_instrs from targets k) = true.
Proof.
  revert from. induction targets as [|d ts IH]; intros from; [reflexivity|].
  cbn [targets_instrs]. rewrite !forallb_app, basic_moves, IH.
  now rewrite basic_repeat.
Qed.

Lemma steps_targets (from : Z) (targets : list Z) (k : nat) (m : machine) :
  bytes (tape m) -> head m = from ->
  is_machine (steps (targets_instrs from targets k) m)
             (add_all targets (Z.of_nat k) (tape m))
             (List.last targets from) (input m) (output m).
Proof.
  revert from m. induction targets as [|d ts IH]; intros from m Hb Hh.
  - repeat split. exact Hh.
  - cbn [targets_instrs]. rewrite !steps_app, (steps_moves from d m Hh).
    set (m1 := mkMachine (tape m) d (input m) (output m)).
    destruct (steps_incs k m1 Hb) as (Hh2 & Ht2 & Hi2 & Ho2).
    set (m2 := steps (repeat IInc k) m1) in *.
    assert (Hb2 : bytes (tape m2)).
    { eapply bytes_ext; [exact Ht2 | apply bytes_cell_add, Hb]. }
    destruct (IH d m2 Hb2 Hh2) as (Hh3 & Ht3 & Hi3 & Ho3).
    rewrite last_cons_default.
    repeat split; [exact Hh3 | | now rewrite Hi3, Hi2 | now rewrite Ho3, Ho2].
    intros i. rewrite Ht3. cbn [add_all fold_left].
    apply add_all_ext. exact Ht2.
Qed.

(** ** The move idiom at run time *)

Lemma steps_move_body (source : Z) (targets : list Z) (k : nat) (m : machine) :
  bytes (tape m) -> head m = source ->
  is_machine (steps (move_body source targets k) m)
             (add_all targets (Z.of_nat k)
                      (update (tape m) source ((tape m source - 1) mod 256)))
             source (input m) (output m).
Proof.
  intros Hb Hh. unfold move_body.
  change (steps (IDec :: ?p) m) with (steps p (step IDec m)).
  rewrite steps_app.
  set (m1 := step IDec m).
  assert (Hb1 : bytes (tape m1)).
  { cbn. apply bytes_update; [assumption | apply Z.mod_pos_bound; lia]. }
  destruct (steps_targets source targets k m1 Hb1 Hh) as (Hh2 & Ht2 & Hi2 & Ho2).
  rewrite (steps_moves _ source _ Hh2).
  repeat split; cbn [head tape input output];
    [ | exact Hi2 | exact Ho2 ].
  intros i. rewrite Ht2. cbn. now rewrite Hh.
Qed.

Lemma iter_move_body (source : Z) (targets : list Z) (k : nat) :
  ~ In source targets ->
  forall (n : nat) (m : machine),
    bytes (tape m) -> head m = source -> Z.of_nat n <= tape m source ->
    is_machine (Nat.iter n (steps (move_body source targets k)) m)
      (fun i => if i =? source then tape m source - Z.of_nat n
                else (tape m i + Z.of_nat n * (occurrences targets i * Z.of_nat k)) mod 256)
      source (input m) (output m)
    /\ bytes (tape (Nat.iter n (steps (move_body source targets k)) m)).
Proof.
  intros Hnot. induction n as [|n IH]; intros m Hb Hh Hn.
  - cbn [Nat.iter nat_rect]. split; [|exact Hb]. repeat split; [exact Hh|].
    intros i. destruct (Z.eqb_spec i source) as [->|_]; [lia|].
    rewrite Z.mul_0_l, Z.add_0_r, Z.mod_small; [reflexivity | apply Hb].
  - change (Nat.iter (S n) ?F m) with (F (Nat.iter n F m)).
    destruct (IH m Hb Hh ltac:(lia)) as ((Hh1 & Ht1 & Hi1 & Ho1) & Hb1).
    set (m1 := Nat.iter n (steps (move_body source targets k)) m) in *.
    destruct (steps_move_body source targets k m1 Hb1 Hh1) as (Hh2 & Ht2 & Hi2 & Ho2).
    assert (Hup : bytes (update (tape m1) source ((tape m1 source - 1) mod 256))).
    { apply bytes_update; [assumption | apply Z.mod_pos_bound; lia]. }
    split.
    + repeat split; [exact Hh2 | | congruence | congruence].
      intros i. rewrite Ht2, (add_all_at _ _ _ _ Hup). unfold update.
      destruct (Z.eqb_spec i source) as [->|Hne].
      * rewrite (occurrences_not_in _ _ Hnot), Z.mul_0_l, Z.add_0_r, Zmod_mod.
        rewrite Ht1, Z.eqb_refl. pose proof (Hb source).
        rewrite Z.mod_small; lia.
      * rewrite Ht1. destruct (Z.eqb_spec i source); [contradiction|].
        rewrite Zplus_mod_idemp_l. f_equal. lia.
    + eapply bytes_ext; [exact Ht2 | apply bytes_add_all, Hup].
Qed.

Lemma runs_move_cell (from source : Z) (targets : list Z) (k : nat) (m : machine) :
  ~ In source targets -> bytes (tape m) -> head m = from ->
  exists m',
    runs (move_cell_instrs from source targets k) m m' /\
    is_machine m'
      (fun i => if i =? source then 0
                else (tape m i + tape m source * (occurrences targets i * Z.of_nat k)) mod 256)
      source (input m) (output m) /\
    bytes (tape m').
Proof.
  intros Hnot Hb Hh. unfold move_cell_instrs.
  set (m1 := mkMachine (tape m) source (input m) (output m)).
  set (F := steps (move_body source targets k)).
  set (n := Z.to_nat (tape m source)).
  assert (Hn : Z.of_nat n = tape m source) by (pose proof (Hb source); lia).
  exists (Nat.iter n F m1).
  destruct (iter_move_body source targets k Hnot n m1 Hb eq_refl ltac:(cbn; lia))
    as ((Hh' & Ht' & Hi' & Ho') & Hb').
  split; [|split; [|exact Hb']].
  - apply (runs_app _ _ m m1).
    + assert (Hm1 : steps (moves_instrs from source) m = m1)
        by (apply steps_moves; exact Hh).
      rewrite <- Hm1. apply runs_steps, basic_moves.
    + refine (proj1 (runs_loop_count (move_body source targets k) F
                       (fun m' => bytes (tape m') /\ head m' = source) _ n m1 _ _)).
      * intros m' [Hbm Hhm] Hpos.
        destruct (steps_move_body source targets k m' Hbm Hhm) as (Hh2 & Ht2 & _).
        assert (Hup : bytes (update (tape m') source ((tape m' source - 1) mod 256)))
          by (apply bytes_update; [assumption | apply Z.mod_pos_bound; lia]).
        split; [|split; [split|]].
        -- apply runs_steps. unfold move_body. cbn [forallb basic andb].
           now rewrite forallb_app, basic_targets, basic_moves.
        -- eapply bytes_ext; [exact Ht2 | apply bytes_add_all, Hup].
        -- exact Hh2.
        -- unfold F. rewrite Hh2, Ht2, (add_all_at _ _ _ _ Hup), Hhm.
           unfold update. rewrite Z.eqb_refl.
           rewrite (occurrences_not_in _ _ Hnot), Z.mul_0_l, Z.add_0_r, Zmod_mod.
           pose proof (Hbm source).
           rewrite Hhm in Hpos. rewrite Z.mod_small; lia.
      * split; [exact Hb | reflexivity].
      * cbn. lia.
  - repeat split; try assumption.
    intros i. rewrite Ht'. cbn [tape m1]. rewrite Hn.
    destruct (i =? source); [lia | reflexivity].
Qed.

(** C3. The postcondition of [move_cell]: with the source not among the
    targets and a non-negative multiplier [k], [move_cell] returns after
    emitting text that, run on a tape of bytes with the head where the
    compiler predicts it, stops with the head on the source, the source
    at zero, and [k] times the initial source value added (modulo 256) to
    each target in turn; input and output are untouched, and the
    predicted head is the source. *)
Theorem move_cell_postcondition (source : Z) (targets : list Z) (k : Z)
  (c : Compiler) (m : machine) :
  ~ In source targets -> 0 <= k ->
  head m = current_index c -> bytes (tape m) ->
  exists pieces fuel m',
    move_cell source targets (PyInt k) c = (emit_at c pieces source, Ok tt) /\
    run fuel (join pieces) m = Some m' /\
    head m' = source /\
    tape m' source = 0 /\
    (forall i, i <> source ->
               tape m' i = add_all targets (k * tape m source) (tape m) i) /\
    input m' = input m /\ output m' = output m.
Proof.
  intros Hnot Hk Hh Hb.
  destruct (runs_move_cell (current_index c) source targets (Z.to_nat k) m Hnot Hb Hh)
    as (m' & [fuel Hrun] & (Hh' & Ht' & Hi' & Ho') & _).
  exists (move_cell_pieces (current_index c) source targets k), fuel, m'.
  split; [apply move_cell_emit|].
  split.
  { unfold run. now rewrite (straight_parse _ _ (straight_move_cell _ _ _ _)). }
  split; [exact Hh'|]. split; [rewrite Ht'; now rewrite Z.eqb_refl|].
  split; [|split; assumption].
  intros i Hne. rewrite Ht', (add_all_at _ _ _ _ Hb).
  destruct (Z.eqb_spec i source); [contradiction|].
  rewrite Z2Nat.id by assumption. f_equal. lia.
Qed.

Lemma move_cell_postcondition_witness :
  exists pieces fuel m',
    move_cell 0 [1; 2] (PyInt 3) compiler = (emit_at compiler pieces 0, Ok tt) /\
    run fuel (join pieces) (mkMachine (update blank 0 5) 0 [] []) = Some m' /\
    head m' = 0 /\
    tape m' 0 = 0 /\
    (forall i, i <> 0 ->
               tape m' i = add_all [1; 2] (3 * update blank 0 5 0) (update blank 0 5) i) /\
    input m' = [] /\ output m' = [].
Proof.
  apply (move_cell_postcondition 0 [1; 2] 3 compiler
           (mkMachine (update blank 0 5) 0 [] [])).
  - cbn. intros [H|[H|[]]]; discriminate.
  - lia.
  - reflexivity.
  - intros i. cbn. unfold update, blank. destruct (i =? 0); lia.
Defined.

(** ** Running text piece by piece *)

Lemma similar_refl (m : machine) : similar m m.
Proof. repeat split. Qed.

Lemma similar_trans (m d e : machine) : similar m d -> similar d e -> similar m e.
Proof.
  intros (H1 & H2 & H3 & H4) (G1 & G2 & G3 & G4).
  repeat split; try congruence; intros i; now rewrite H2, G2.
Qed.

Lemma similar_sym (m d : machine) : similar m d -> similar d m.
Proof.
  intros (H1 & H2 & H3 & H4).
  repeat split; try congruence; intros i; now rewrite H2.
Qed.

Lemma similar_bytes (m d : machine) : similar m d -> bytes (tape d) -> bytes (tape m).
Proof. intros (_ & H & _) Hb. eapply bytes_ext; [exact H | exact Hb]. Qed.

Lemma similar_step (i : instr) (m d : machine) :
  similar m d -> similar (step i m) (step i d).
Proof.
  intros (H1 & H2 & H3 & H4).
  assert (Hcell : tape m (head m) = tape d (head d)) by (now rewrite H1, H2).
  assert (Hup : forall v j, update (tape m) (head m) v j = update (tape d) (head d) v j).
  { intros v j. unfold update. rewrite H1. destruct (j =? head d); [reflexivity | apply H2]. }
  destruct i; cbn [step]; [ | | | | | rewrite H3; destruct (input d) eqn:E | ];
    repeat split; cbn [head tape input output];
    rewrite ?Hcell; try congruence; try assumption; try (intros j; apply Hup).
Qed.

Lemma bytes_step (i : instr) (m : machine) : bytes (tape m) -> bytes (tape (step i m)).
Proof.
  intros Hb. destruct i; cbn [step tape]; try assumption;
    try (apply bytes_update; [assumption | apply Z.mod_pos_bound; lia]).
  destruct (input m); cbn [tape]; [assumption|].
  apply bytes_update; [assumption | apply Z.mod_pos_bound; lia].
Qed.

Lemma similar_steps (p : list instr) (m d : machine) :
  similar m d -> similar (steps p m) (steps p d).
Proof.
  revert m d. induction p as [|i p IH]; intros m d H; [exact H|].
  cbn [steps fold_left]. apply IH, similar_step, H.
Qed.

Lemma bytes_steps (p : list instr) (m : machine) :
  bytes (tape m) -> bytes (tape (steps p m)).
Proof.
  revert m. induction p as [|i p IH]; intros m H; [exact H|].
  cbn [steps fold_left]. apply IH, bytes_step, H.
Qed.

Lemma goes_nil (d : machine) : goes [] d d.
Proof. intros Hb m Hm. exists m. split; [apply runs_nil | split; assumption]. Qed.

Lemma goes_app (p q : list instr) (d d1 d2 : machine) :
  goes p d d1 -> goes q d1 d2 -> goes (p ++ q) d d2.
Proof.
  intros Hp Hq Hb m Hm.
  destruct (Hp Hb m Hm) as (m1 & Hr1 & Hs1 & Hb1).
  destruct (Hq Hb1 m1 Hs1) as (m2 & Hr2 & Hs2 & Hb2).
  exists m2. split; [eapply runs_app; eassumption | split; assumption].
Qed.

Lemma goes_cons (i : instr) (q : list instr) (d d1 d2 : machine) :
  goes [i] d d1 -> goes q d1 d2 -> goes (i :: q) d d2.
Proof. apply (goes_app [i] q). Qed.

Lemma goes_like (p : list instr) (d d' e : machine) :
  goes p d d' -> (bytes (tape d) -> similar d' e) -> goes p d e.
Proof.
  intros Hp He Hb m Hm. destruct (Hp Hb m Hm) as (m' & Hr & Hs & Hb').
  specialize (He Hb).
  exists m'. split; [exact Hr|]. split; [eapply similar_trans; eassumption|].
  apply (similar_bytes e d'); [apply similar_sym, He | exact Hb'].
Qed.

Lemma goes_basic (p : list instr) (d : machine) :
  forallb basic p = true -> goes p d (steps p d).
Proof.
  intros Hp Hb m Hm. exists (steps p m).
  split; [apply runs_steps, Hp|]. split; [apply similar_steps, Hm|].
  apply bytes_steps, Hb.
Qed.

Lemma goes_moves (a b : Z) (d : machine) :
  head d = a ->
  goes (moves_instrs a b) d (mkMachine (tape d) b (input d) (output d)).
Proof.
  intros Ha. rewrite <- (steps_moves a b d Ha). apply goes_basic, basic_moves.
Qed.

Lemma goes_incs (n : nat) (d : machine) :
  goes (repeat IInc n) d
       (mkMachine (cell_add (tape d) (head d) (Z.of_nat n)) (head d)
                  (input d) (output d)).
Proof.
  apply goes_like with (d' := steps (repeat IInc n) d).
  - apply goes_basic, basic_repeat. reflexivity.
  - intros Hb. unfold similar. cbn [tape head input output].
    apply steps_incs, Hb.
Qed.

Lemma moves_instrs_same (a : Z) : moves_instrs a a = [].
Proof. unfold moves_instrs. now rewrite Z.ltb_irrefl, Z.sub_diag. Qed.

Lemma goes_move_cell (from source : Z) (targets : list Z) (k : nat) (d : machine) :
  ~ In source targets -> head d = from ->
  goes (move_cell_instrs from source targets k) d
       (mkMachine
          (fun i => if i =? source then 0
                    else (tape d i + tape d source * (occurrences targets i * Z.of_nat k)) mod 256)
          source (input d) (output d)).
Proof.
  intros Hnot Hh Hb m (H1 & H2 & H3 & H4).
  assert (Hbm : bytes (tape m)) by (eapply bytes_ext; [exact H2 | exact Hb]).
  destruct (runs_move_cell from source targets k m Hnot Hbm ltac:(congruence))
    as (m' & Hr & (G1 & G2 & G3 & G4) & Hb').
  exists m'. split; [exact Hr|].
  assert (Hpt : forall i, tape m' i =
                  (if i =? source then 0
                   else (tape d i + tape d source * (occurrences targets i * Z.of_nat k)) mod 256)).
  { intros i. now rewrite G2, !H2. }
  split.
  - repeat split; cbn [tape head input output]; [exact G1 | exact Hpt | congruence | congruence].
  - cbn [tape]. intros i. rewrite <- Hpt. apply Hb'.
Qed.

Lemma goes_zero (d : machine) :
  goes [ILoop [IDec]] d
       (mkMachine (update (tape d) (head d) 0) (head d) (input d) (output d)).
Proof.
  pose proof (goes_move_cell (head d) (head d) [] 0 d ltac:(cbn; tauto) eq_refl) as H.
  unfold move_cell_instrs, move_body in H.
  cbn [targets_instrs List.last app] in H.
  rewrite moves_instrs_same in H. cbn [app] in H.
  eapply goes_like; [exact H|]. intros Hb.
  repeat split; cbn [tape head input output].
  intros i. unfold update. destruct (i =? head d); [reflexivity|].
  replace (tape d i + tape d (head d) * (occurrences [] i * Z.of_nat 0))
    with (tape d i) by (unfold occurrences; cbn; lia).
  rewrite Z.mod_small; [reflexivity | apply Hb].
Qed.

Lemma goes_loop_skip (body : list instr) (d : machine) :
  tape d (head d) = 0 -> goes [ILoop body] d d.
Proof.
  intros Hz Hb m Hm. exists m. split; [|split; assumption].
  apply runs_loop_done. destruct Hm as (H1 & H2 & _). now rewrite H1, H2.
Qed.

Lemma goes_loop_once (body : list instr) (d d' : machine) :
  tape d (head d) <> 0 -> goes body d d' -> tape d' (head d') = 0 ->
  goes [ILoop body] d d'.
Proof.
  intros Hnz Hbody Hz Hb m Hm.
  destruct (Hbody Hb m Hm) as (m' & Hr & Hs & Hb').
  exists m'. split; [|split; assumption].
  eapply runs_loop_once; [| exact Hr |].
  - destruct Hm as (H1 & H2 & _). now rewrite H1, H2.
  - apply runs_loop_done. destruct Hs as (H1 & H2 & _). now rewrite H1, H2.
Qed.

Lemma goes_run (code : string) (p : list instr) (d d' : machine) :
  straight code p -> goes p d d' -> bytes (tape d) ->
  exists fuel m', run fuel code d = Some m' /\ similar m' d'.
Proof.
  intros Hs Hg Hb. destruct (Hg Hb d (similar_refl d)) as (m' & [fuel Hr] & Hm & _).
  exists fuel, m'. split; [|exact Hm].
  unfold run. now rewrite (straight_parse _ _ Hs).
Qed.

Lemma straight_join_app (l1 l2 : list string) (p q : list instr) :
  straight (join l1) p -> straight (join l2) q ->
  straight (join (l1 ++ l2)) (p ++ q).
Proof. intros H1 H2. rewrite join_app. now apply straight_app. Qed.

Lemma straight_join_cons (s : string) (l : list string) (p q : list instr) :
  straight s p -> straight (join l) q -> straight (join (s :: l)) (p ++ q).
Proof. intros H1 H2. cbn [join]. now apply straight_app. Qed.

Lemma straight_join_loop (body : list string) (p : list instr) :
  straight (join body) p -> straight (join ("[" :: body ++ ["]"])) [ILoop p].
Proof.
  intros H. cbn [join]. rewrite join_snoc. now apply straight_loop.
Qed.

Lemma straight_nnot (from p y : Z) :
  straight (join (nnot_pieces from p y)) (nnot_instrs from p y).
Proof.
  unfold nnot_pieces, nnot_instrs. apply straight_join_app.
  - apply straight_join_cons; [apply straight_moves|].
    apply (straight_join_cons _ _ [ILoop [IDec]; IInc]); [apply straight_one|].
    rewrite <- (app_nil_r (moves_instrs y p)).
    apply straight_join_cons; [apply straight_moves | apply straight_nil].
  - apply straight_join_loop. unfold nnot_body.
    apply straight_join_cons; [apply straight_zero|].
    apply straight_join_cons; [apply straight_moves|].
    apply straight_join_cons; [apply straight_dec|].
    rewrite <- (app_nil_r (moves_instrs y p)).
    apply straight_join_cons; [apply straight_moves | apply straight_nil].
Qed.

(** ** Logical negation *)

Lemma allocate_eq (c : Compiler) :
  allocate c = (after_allocate c, Ok (next_cell c)).
Proof. unfold allocate, after_allocate, next_cell. now destruct (gaps c). Qed.

Lemma new_byte_eq (c : Compiler) :
  new ByteType c = (after_allocate c, Ok (Byte ByteType (next_cell c))).
Proof. cbn [new]. now rewrite (bind_ok _ _ _ _ _ (allocate_eq c)). Qed.

Lemma current_index_after_allocate (c : Compiler) :
  current_index (after_allocate c) = current_index c.
Proof. unfold after_allocate. now destruct (gaps c). Qed.

Lemma program_after_allocate (c : Compiler) :
  program (after_allocate c) = program c.
Proof. unfold after_allocate. now destruct (gaps c). Qed.

Lemma gaps_after_allocate (c : Compiler) :
  gaps (after_allocate c) = gaps c.
Proof. unfold after_allocate. destruct (gaps c) eqn:E; cbn; congruence. Qed.

Lemma nnot_emit (t : pytype) (p : Z) (c : Compiler) :
  Intrinsic.nnot (Byte t p) c
  = (emit_at (after_allocate c) (nnot_pieces (current_index c) p (next_cell c)) p,
     Ok (Byte ByteType (next_cell c))).
Proof.
  unfold Intrinsic.nnot. rewrite (bind_ok _ _ _ _ _ (new_byte_eq c)).
  set (y := next_cell c). set (c1 := after_allocate c).
  do 5 sym_step. rewrite !emit_at_emit_at, !current_index_emit_at.
  erewrite bind_ok;
    [| apply loop_emit with (pieces := ["[-]"; moves p y; "-"; moves y p]) ].
  - cbn [ret]. rewrite !emit_at_emit_at, !current_index_emit_at.
    unfold nnot_pieces, c1. now rewrite current_index_after_allocate.
  - do 5 sym_step. rewrite goto_emit.
    now rewrite !emit_at_emit_at, !current_index_emit_at.
Qed.

Lemma live_after_allocate (c : Compiler) (i : Z) :
  live c i -> live (after_allocate c) i /\ next_cell c <> i.
Proof.
  intros [Hlt Hnot]. unfold live, after_allocate, next_cell.
  destruct (gaps c) as [|g gs] eqn:E.
  - cbn [non_allocated gaps]. rewrite ?E. split; [split; [lia | exact Hnot] | lia].
  - rewrite E. split; [split; assumption|].
    intros ->. apply Hnot. now left.
Qed.

Lemma goes_nnot (from p y : Z) (d : machine) :
  p <> y -> head d = from ->
  exists d', goes (nnot_instrs from p y) d d' /\ head d' = p /\ tape d' p = 0.
Proof.
  intros Hne Hh. unfold nnot_instrs.
  set (d4 := mkMachine (cell_add (update (tape d) y 0) y (Z.of_nat 1)) p
                       (input d) (output d)).
  assert (Hpre : goes (moves_instrs from y ++ [ILoop [IDec]; IInc] ++ moves_instrs y p)
                      d d4).
  { eapply goes_app; [apply goes_moves, Hh|].
    eapply goes_cons; [apply goes_zero|]. cbn [tape head input output].
    eapply goes_cons; [apply (goes_incs 1)|]. cbn [tape head input output].
    apply (goes_moves y p). reflexivity. }
  assert (Hp4 : tape d4 p = tape d p).
  { cbn. unfold cell_add, update.
    destruct (Z.eqb_spec p y); [contradiction | reflexivity]. }
  destruct (Z.eq_dec (tape d p) 0) as [Hz|Hnz].
  - exists d4. split; [|split; [reflexivity | congruence]].
    eapply goes_app; [exact Hpre|]. apply goes_loop_skip.
    change (tape d4 p = 0). congruence.
  - set (d6 := mkMachine (update (tape d4) p 0) y (input d) (output d)).
    set (d8 := mkMachine (tape (step IDec d6)) p (input d) (output d)).
    assert (Hp8 : tape d8 p = 0).
    { cbn. unfold update. destruct (Z.eqb_spec p y); [contradiction|].
      now rewrite Z.eqb_refl. }
    exists d8. split; [|split; [reflexivity | exact Hp8]].
    eapply goes_app; [exact Hpre|].
    apply goes_loop_once; [change (tape d4 p <> 0); congruence | | exact Hp8].
    unfold nnot_body.
    eapply goes_app; [apply goes_zero|]. cbn [tape head input output].
    eapply goes_app; [apply goes_moves; reflexivity|]. cbn [tape head input output].
    eapply goes_app; [apply (goes_basic [IDec]); reflexivity|].
    apply (goes_moves y p). reflexivity.
Qed.

(** C10. The [!] intrinsic never frees its operand: for a byte operand in
    a live cell [p], [!] returns a byte in another cell, leaves the gap
    list as it was and [p] live, and the text it emits, run on a tape of
    bytes with the head where the compiler predicts it, leaves cell [p]
    at zero. *)
Theorem nnot_keeps_operand_allocated (t : pytype) (p : Z) (c : Compiler) (m : machine) :
  live c p -> head m = current_index c -> bytes (tape m) ->
  exists c' y pieces fuel m',
    Intrinsic.nnot (Byte t p) c = (c', Ok (Byte ByteType y)) /\
    y <> p /\
    program c' = (program c ++ pieces)%list /\
    gaps c' = gaps c /\
    live c' p /\
    run fuel (join pieces) m = Some m' /\
    tape m' p = 0.
Proof.
  intros Hlive Hh Hb.
  destruct (live_after_allocate c p Hlive) as [Hlive' Hy].
  destruct (goes_nnot (current_index c) p (next_cell c) m ltac:(congruence) Hh)
    as (d' & Hg & _ & Hz).
  destruct (goes_run _ _ m d' (straight_nnot (current_index c) p (next_cell c)) Hg Hb)
    as (fuel & m' & Hrun & (_ & Ht & _)).
  exists (emit_at (after_allocate c)
                  (nnot_pieces (current_index c) p (next_cell c)) p),
         (next_cell c), (nnot_pieces (current_index c) p (next_cell c)), fuel, m'.
  split; [apply nnot_emit|]. split; [exact Hy|].
  split; [cbn [emit_at program]; now rewrite program_after_allocate|].
  split; [cbn [emit_at gaps]; apply gaps_after_allocate|].
  split; [exact Hlive'|]. split; [exact Hrun|].
  now rewrite Ht.
Qed.

Lemma nnot_keeps_operand_allocated_witness :
  exists c' y pieces fuel m',
    Intrinsic.nnot (Byte ByteType 0) (mkCompiler [] 0 1 [] None intrinsics)
    = (c', Ok (Byte ByteType y)) /\
    y <> 0 /\
    program c' = ([] ++ pieces)%list /\
    gaps c' = [] /\
    live c' 0 /\
    run fuel (join pieces) (mkMachine (update blank 0 7) 0 [] []) = Some m' /\
    tape m' 0 = 0.
Proof.
  apply (nnot_keeps_operand_allocated ByteType 0
           (mkCompiler [] 0 1 [] None intrinsics)
           (mkMachine (update blank 0 7) 0 [] [])).
  - split; [cbn; lia | cbn; tauto].
  - reflexivity.
  - intros i. cbn. unfold update, blank. destruct (i =? 0); lia.
Defined.

(** ** Bracket balance *)

Lemma depth_scan_app (a b : string) (d : nat) :
  depth_scan (a +:+ b) d =
  match depth_scan a d with
  | Some d' => depth_scan b d'
  | None => None
  end.
Proof.
  revert d. induction a as [|x a IH]; intros d; [reflexivity|].
  rewrite append_cons. cbn [depth_scan].
  destruct (Ascii.eqb x "["); [apply IH|].
  destruct (Ascii.eqb x "]"); [|apply IH].
  destruct d; [reflexivity | apply IH].
Qed.

Lemma neutral_app (a b : string) : neutral a -> neutral b -> neutral (a +:+ b).
Proof. intros Ha Hb d. now rewrite depth_scan_app, Ha, Hb. Qed.

Lemma neutral_repeat (s : string) (n : nat) : neutral s -> neutral (repeat_string s n).
Proof.
  intros Hs. induction n as [|n IH]; [intros d; reflexivity|].
  cbn [repeat_string]. now apply neutral_app.
Qed.

Lemma neutral_moves (a b : Z) : neutral (moves a b).
Proof.
  unfold moves. destruct (a <? b); apply neutral_repeat; intros d; reflexivity.
Qed.

Lemma depth_after (c : Compiler) (code : string) (i : Z) (d d' : nat) :
  depth_is d c -> depth_scan code d = Some d' -> depth_is d' (emit_at c [code] i).
Proof.
  unfold depth_is. intros Hc Hcode. cbn [emit_at program].
  now rewrite join_snoc, depth_scan_app, Hc.
Qed.

Lemma depth_silent {A} (m : M A) (d : nat) :
  silent m -> triple (depth_is d) m (fun _ => depth_is d) (fun _ _ => True).
Proof.
  intros Hs. apply silent_triple; auto.
  unfold depth_is. intros c c' Hp _ H. now rewrite Hp.
Qed.

Lemma depth_execute (code : string) (d : nat) :
  neutral code ->
  triple (depth_is d) (execute code) (fun _ => depth_is d) (fun _ _ => True).
Proof.
  intros Hn c Hc. rewrite execute_emit. eapply depth_after; [exact Hc | apply Hn].
Qed.

Lemma depth_goto (k : Z) (d : nat) :
  triple (depth_is d) (goto k) (fun _ => depth_is d) (fun _ _ => True).
Proof.
  intros c Hc. rewrite goto_emit. eapply depth_after; [exact Hc | apply neutral_moves].
Qed.

Lemma depth_str_mul (s : string) (v : value) (d : nat) :
  neutral s ->
  triple (depth_is d) (str_mul s v)
         (fun code c => depth_is d c /\ neutral code) (fun _ _ => True).
Proof.
  intros Hs c Hc. destruct v; simpl; auto.
  split; [assumption | now apply neutral_repeat].
Qed.

Lemma depth_loop (body : M unit) (d : nat) :
  triple (depth_is (S d)) body (fun _ => depth_is (S d)) (fun _ _ => True) ->
  triple (depth_is d) (loop body) (fun _ => depth_is d) (fun _ _ => True).
Proof.
  intros Hb c Hc. rewrite loop_unfold.
  generalize (current_index c) at 1. intros save. revert c Hc.
  change (triple (depth_is d)
            (execute "[" ;;; body ;;; execute "]" ;;;
             (fun c' => if negb (save =? current_index c')
                        then raise (Exception "unbalanced loop") c'
                        else ret tt c'))
            (fun _ => depth_is d) (fun _ _ => True)).
  eapply triple_bind with (Q := fun _ => depth_is (S d)).
  { intros c Hc. rewrite execute_emit. eapply depth_after; [exact Hc | reflexivity]. }
  intros ?. eapply triple_bind; [exact Hb | intros ?].
  eapply triple_bind with (Q := fun _ => depth_is d).
  { intros c Hc. rewrite execute_emit. eapply depth_after; [exact Hc | reflexivity]. }
  intros ?. apply depth_silent, silent_check.
Qed.

Create HintDb depth_ops.

Ltac depth_tac :=
  lazymatch goal with
  | |- triple _ (ret _) _ _ => apply triple_ret; intros; auto
  | |- triple _ (raise _) _ _ => apply triple_raise; intros; auto
  | |- triple (fun c => _ /\ _) _ _ _ => apply triple_fact; intros ?; depth_tac
  | |- triple _ (bind _ _) _ _ =>
      eapply triple_bind; [ depth_tac | intros ?; cbv beta; depth_tac ]
  | |- triple _ (loop _) _ _ => apply depth_loop; depth_tac
  | |- triple _ (for_each _ _) _ _ => apply triple_for_each; intros ?; depth_tac
  | |- triple _ (goto _) _ _ => apply depth_goto
  | |- triple _ (execute _) _ _ =>
      apply depth_execute; first [ assumption | intros ?; reflexivity ]
  | |- triple _ (str_mul _ _) _ _ => apply depth_str_mul; intros ?; reflexivity
  | |- triple _ (match ?r with Some _ => _ | None => _ end) _ _ =>
      destruct r; depth_tac
  | H : forall d n, triple _ (?ev n) _ _ |- triple _ (?ev _) _ _ => apply H
  | |- triple _ _ _ _ =>
      first [ eassumption
            | solve [eauto with depth_ops]
            | apply depth_silent; solve [auto with silent_ops] ]
  end.

Lemma depth_move_cell (source : Z) (targets : list Z) (multiplier : value) (d : nat) :
  triple (depth_is d) (move_cell source targets multiplier)
         (fun _ => depth_is d) (fun _ _ => True).
Proof. unfold move_cell. depth_tac. Qed.
#[local] Hint Resolve depth_move_cell : depth_ops.

Lemma depth_copy (v : value) (d : nat) :
  triple (depth_is d) (copy v) (fun _ => depth_is d) (fun _ _ => True).
Proof. destruct v; simpl; try depth_tac. unfold Byte_copy. depth_tac. Qed.
#[local] Hint Resolve depth_copy : depth_ops.

Lemma depth_call_builtin (func : builtin) (args : list value) (d : nat) :
  triple (depth_is d) (call_builtin func args)
         (fun _ => depth_is d) (fun _ _ => True).
Proof.
  destruct func; destruct args as [|x [|y [|z args]]]; cbn [call_builtin];
    try (apply triple_raise; auto);
    unfold Intrinsic.assign, Intrinsic.assign_virtual, Intrinsic.succ, Intrinsic.pred, Intrinsic.iadd, Intrinsic.iadd_virtual,
      Intrinsic.isub, Intrinsic.isub_virtual, Intrinsic.imul, Intrinsic.imul_virtual, Intrinsic.nnot, Intrinsic.eq, Intrinsic.read, Intrinsic.write;
    depth_tac.
Qed.
#[local] Hint Resolve depth_call_builtin : depth_ops.

Lemma depth_evaluate (fuel : nat) (d : nat) (n : node) :
  triple (depth_is d) (evaluate fuel n) (fun _ => depth_is d) (fun _ _ => True).
Proof.
  revert d n. induction fuel as [|fuel IH]; intros d n; cbn [evaluate].
  - apply triple_raise; auto.
  - assert (Hcode : forall d code,
               triple (depth_is d) (Code_execute (evaluate fuel) code)
                      (fun _ => depth_is d) (fun _ _ => True)).
    { intros d' [sts]. cbn [Code_execute]. depth_tac. }
    assert (Hcall : forall d f args,
               triple (depth_is d) (call (evaluate fuel) f args)
                      (fun _ => depth_is d) (fun _ _ => True)).
    { intros d' [func|names code rexpr] args; cbn [call]; [apply depth_call_builtin|].
      pose proof (Hcode d' code). depth_tac. }
    assert (Hmap : forall d l,
               triple (depth_is d) (map_M (evaluate fuel) l)
                      (fun _ => depth_is d) (fun _ _ => True))
      by (intros d' l; apply triple_map_M, IH).
    assert (Htypes : forall d l,
               triple (depth_is d) (map_M type_of l)
                      (fun _ => depth_is d) (fun _ _ => True))
      by (intros d' l; apply triple_map_M; intros ?; depth_tac).
    destruct n; depth_tac.
Qed.

Lemma depth_is_balanced (c : Compiler) : depth_is 0 c <-> balanced (join (program c)).
Proof. reflexivity. Qed.

(** C4. Loop balance and fault: [loop] emits ["["] before its body; when
    the body returns it emits ["]"] and then raises "unbalanced loop"
    exactly when the predicted head differs from the one at entry, and
    returns otherwise; an exception of the body passes through with
    nothing emitted after it.  Hence a compilation that succeeds from
    balanced text returns the program it accumulated, with every bracket
    matched. *)
Theorem loop_balance_and_fault (body : M unit) (c : Compiler) :
  program (state_of (execute "[" c)) = (program c ++ ["["])%list /\
  (forall c2 u, body (state_of (execute "[" c)) = (c2, Ok u) ->
     program (state_of (loop body c)) = (program c2 ++ ["]"])%list /\
     (outcome (loop body c) = Raise (Exception "unbalanced loop")
      <-> current_index c2 <> current_index c) /\
     (outcome (loop body c) = Ok tt
      <-> current_index c2 = current_index c)) /\
  (forall c2 e, body (state_of (execute "[" c)) = (c2, Raise e) ->
     loop body c = (c2, Raise e)) /\
  (forall fuel c' prog,
     compile fuel c = (c', Ok prog) -> balanced (join (program c)) ->
     prog = program c' /\ balanced (join prog)).
Proof.
  split; [reflexivity|]. split; [|split].
  - intros c2 u Hb. rewrite loop_unfold.
    rewrite (bind_ok _ _ _ _ _ (execute_emit "[" c)).
    change (emit_at c ["["] (current_index c)) with (state_of (execute "[" c)).
    rewrite (bind_ok _ _ _ _ _ Hb).
    rewrite (bind_ok _ _ _ _ _ (execute_emit "]" c2)).
    cbn [emit_at current_index].
    destruct (Z.eqb_spec (current_index c) (current_index c2)) as [Heq|Hne];
      cbn [negb state_of outcome fst snd raise ret program].
    + split; [reflexivity|]. split; split; intros H;
        first [discriminate | congruence | reflexivity].
    + split; [reflexivity|]. split; split; intros H;
        first [discriminate | congruence | reflexivity].
  - intros c2 e Hb. rewrite loop_unfold.
    rewrite (bind_ok _ _ _ _ _ (execute_emit "[" c)).
    change (emit_at c ["["] (current_index c)) with (state_of (execute "[" c)).
    now rewrite (bind_raise _ _ _ _ _ Hb).
  - intros fuel c' prog Hcomp Hbal. unfold compile in Hcomp.
    pose proof (depth_evaluate fuel 0 (FunctionCall "main" []) c
                  (proj2 (depth_is_balanced c) Hbal)) as Hd.
    unfold bind in Hcomp.
    destruct (evaluate fuel (FunctionCall "main" []) c) as [c1 [v|e]];
      [|discriminate].
    injection Hcomp as <- <-. split; [reflexivity | exact Hd].
Qed.

Lemma loop_balance_and_fault_witness :
  outcome (loop (goto 1) compiler) = Raise (Exception "unbalanced loop") /\
  outcome (loop (goto 0) compiler) = Ok tt /\
  balanced (join [""; "["; ""; "[-]"; "]"]).
Proof.
  pose (cw := register "main" []
                (Function [] (mkCode [Declaration ByteType "x";
                                      If (Get "x") (mkCode [])]) None)
                compiler).
  assert (E : compile 3 cw = (state_of (compile 3 cw), Ok [""; "["; ""; "[-]"; "]"]))
    by (vm_compute; reflexivity).
  destruct (loop_balance_and_fault (goto 1) compiler) as (_ & H1 & _ & _).
  destruct (loop_balance_and_fault (goto 0) compiler) as (_ & H0 & _ & _).
  destruct (loop_balance_and_fault (ret tt) cw) as (_ & _ & _ & Hc).
  split; [|split].
  - apply (H1 (state_of (goto 1 (state_of (execute "[" compiler)))) tt eq_refl).
    cbn. discriminate.
  - apply (H0 (state_of (goto 0 (state_of (execute "[" compiler)))) tt eq_refl).
    reflexivity.
  - exact (proj2 (Hc 3%nat _ _ E eq_refl)).
Defined.

(** ** Multiplication by a constant, end to end *)

Lemma compile_multiply (A B : Z) (n : nat) :
  compile (S (S (S n))) (register "main" [] (multiply_main A B) compiler)
  = (mkCompiler (multiply_pieces A B) 0 2 []
                (Some (<["x" := Byte ByteType 0]> ∅))
                (intrinsics ++ [(("main", []), multiply_main A B)]),
     Ok (multiply_pieces A B)).
Proof. vm_compute. reflexivity. Qed.

Lemma straight_multiply (A B : Z) :
  straight (join (multiply_pieces A B)) (multiply_instrs A B).
Proof.
  unfold multiply_pieces, multiply_instrs.
  apply straight_join_app.
  { apply straight_join_cons; [apply straight_moves|].
    rewrite <- (app_nil_r (repeat IInc _)).
    apply straight_join_cons; [apply straight_repeat, straight_inc | apply straight_nil]. }
  apply straight_join_app; [apply straight_move_cell|].
  apply straight_join_app; [apply straight_move_cell|].
  apply straight_join_cons; [apply straight_moves|].
  rewrite <- (app_nil_r [IOut]).
  apply straight_join_cons; [apply straight_out | apply straight_nil].
Qed.

Lemma bytes_blank : bytes blank.
Proof. intros i. unfold blank. lia. Qed.

Lemma goes_multiply (A B : Z) :
  0 <= A <= 255 -> 0 <= B <= 255 ->
  exists d', goes (multiply_instrs A B) (mkMachine blank 0 [] []) d' /\
             output d' = [(A * B) mod 256].
Proof.
  intros HA HB. unfold multiply_instrs.
  set (d0 := mkMachine blank 0 [] []).
  set (d1 := mkMachine (cell_add blank 0 (Z.of_nat (Z.to_nat A))) 0 [] []).
  set (T2 := fun i => if i =? 0 then 0
                      else (tape d1 i + tape d1 0
                            * (occurrences [1] i * Z.of_nat (Z.to_nat B))) mod 256).
  set (d2 := mkMachine T2 0 [] []).
  set (T3 := fun i => if i =? 1 then 0
                      else (tape d2 i + tape d2 1
                            * (occurrences [0] i * Z.of_nat (Z.to_nat 1))) mod 256).
  set (d3 := mkMachine T3 1 [] []).
  set (d4 := mkMachine T3 0 [] []).
  exists (step IOut d4). split.
  - apply goes_app with (d1 := d1).
    { apply goes_app with (d1 := d0); [apply (goes_moves 0 0 d0); reflexivity|].
      apply (goes_incs (Z.to_nat A) d0). }
    apply goes_app with (d1 := d2).
    { apply (goes_move_cell 0 0 [1] (Z.to_nat B) d1); [|reflexivity].
      cbn. intros [H|[]]; discriminate. }
    apply goes_app with (d1 := d3).
    { apply (goes_move_cell 0 1 [0] (Z.to_nat 1) d2); [|reflexivity].
      cbn. intros [H|[]]; discriminate. }
    apply goes_app with (d1 := d4); [apply (goes_moves 1 0 d3); reflexivity|].
    apply (goes_basic [IOut] d4). reflexivity.
  - cbn. unfold T3, T2. cbn. unfold cell_add, update, blank, occurrences. cbn.
    rewrite !Z2Nat.id by lia. f_equal.
    rewrite Z.add_0_l, (Z.mod_small A) by lia.
    rewrite Z.mul_1_r, Z.mod_mod by lia. f_equal. lia.
Qed.

(** C5. End-to-end multiply: for [A] and [B] in [0, 255], compiling
    [byte x; x += A; x *= B; write(x);] as the body of [main] succeeds
    (at every evaluation depth from 3 on), and the emitted text, run on
    the all-zero tape with the head at cell 0, stops having written the
    single byte [(A * B) mod 256]. *)
Theorem multiply_end_to_end (A B : Z) :
  0 <= A <= 255 -> 0 <= B <= 255 ->
  exists c' prog fuel m',
    (forall n, compile (3 + n) (register "main" [] (multiply_main A B) compiler)
               = (c', Ok prog)) /\
    run fuel (join prog) (mkMachine blank 0 [] []) = Some m' /\
    output m' = [(A * B) mod 256].
Proof.
  intros HA HB.
  destruct (goes_multiply A B HA HB) as (d' & Hg & Hout).
  destruct (goes_run _ _ _ d' (straight_multiply A B) Hg bytes_blank)
    as (fuel & m' & Hrun & (_ & _ & _ & Ho)).
  eexists _, (multiply_pieces A B), fuel, m'.
  split; [intros n; apply (compile_multiply A B n)|].
  split; [exact Hrun | congruence].
Qed.

Lemma multiply_end_to_end_witness :
  exists c' prog fuel m',
    (forall n, compile (3 + n) (register "main" [] (multiply_main 6 7) compiler)
               = (c', Ok prog)) /\
    run fuel (join prog) (mkMachine blank 0 [] []) = Some m' /\
    output m' = [(6 * 7) mod 256].
Proof. apply (multiply_end_to_end 6 7); lia. Defined.

(** ** Concrete runs *)

Example emitted_multiply_6_7 :
  join (multiply_pieces 6 7) = "++++++[->+++++++<]>[-<+>]<.".
Proof. reflexivity. Qed.

Example run_multiply_6_7 :
  option_map output
    (run 1000 "++++++[->+++++++<]>[-<+>]<." (mkMachine blank 0 [] []))
  = Some [42].
Proof. vm_compute. reflexivity. Qed.

Example run_echo :
  option_map output (run 10 ",." (mkMachine blank 0 [65] [])) = Some [65].
Proof. vm_compute. reflexivity. Qed.

Example unmatched_bracket_does_not_run :
  run 10 "+]" (mkMachine blank 0 [] []) = None /\ ~ balanced "+]".
Proof. split; [reflexivity | discriminate]. Qed.

(** The table finds [+=] on a byte and a virtual integer through the
    identity of the type handle, although the handle's [__eq__] says it
    differs from itself. *)
Example dispatch_goes_by_identity :
  lookup_function "+=" [ByteType; VirtualIntegerType] compiler
  = (compiler, Ok (BuiltinFunction iadd_virtual)) /\
  type_eq VirtualIntegerType (PyType VirtualIntegerType) = false.
Proof. split; reflexivity. Qed.

Example compile_without_main :
  outcome (compile 5 compiler) = Raise (KeyError "main").
Proof. reflexivity. Qed.

(** * Further properties of the code *)

(** ** The allocator on its own *)

(** X1. With no gap at hand, [allocate] returns the high-water mark:
    a cell that was not live, is live afterwards, and every cell that was
    live stays live. *)
Theorem allocate_without_gaps_is_fresh (c : Compiler) :
  gaps c = [] -> 0 <= non_allocated c ->
  exists c',
    allocate c = (c', Ok (non_allocated c)) /\
    ~ live c (non_allocated c) /\
    live c' (non_allocated c) /\
    (forall j, live c' j <-> j = non_allocated c \/ live c j).
Proof.
  intros Hg Hn. unfold allocate. rewrite Hg. eexists. split; [reflexivity|].
  unfold live. cbn [non_allocated gaps]. rewrite Hg.
  split; [lia|]. split; [split; [lia | cbn; tauto]|].
  intros j. cbn [In]. split.
  - intros [Hj _]. destruct (Z.eq_dec j (non_allocated c)); [now left | right].
    split; [lia | tauto].
  - intros [-> | [Hj _]]; (split; [lia | tauto]).
Qed.

Lemma allocate_without_gaps_is_fresh_witness :
  exists c',
    allocate compiler = (c', Ok 0) /\
    ~ live compiler 0 /\
    live c' 0 /\
    (forall j, live c' j <-> j = 0 \/ live compiler j).
Proof.
  apply (allocate_without_gaps_is_fresh compiler); [reflexivity | cbn; lia].
Defined.

(** X2. [free_cell] releases exactly the cell it is given: that cell is
    not live afterwards, and the liveness of every other cell is
    unchanged, whether the cell was the topmost one or not. *)
Theorem free_cell_releases_one_cell (c : Compiler) (i : Z) :
  ~ live (state_of (free_cell i c)) i /\
  (forall j, j <> i -> (live (state_of (free_cell i c)) j <-> live c j)).
Proof.
  unfold free_cell, state_of, live.
  destruct (Z.eqb_spec (i + 1) (non_allocated c)) as [He|Hne];
    cbn [fst non_allocated gaps].
  - split; [lia|]. intros j Hj. split; intros [H1 H2]; (split; [lia | exact H2]).
  - split.
    + intros [_ H]. apply H. apply in_or_app. right. now left.
    + intros j Hj. split; intros [H1 H2]; (split; [exact H1|]).
      * intros Hin. apply H2. apply in_or_app. now left.
      * intros Hin. apply in_app_or in Hin as [Hin|[Hin|[]]]; [tauto | congruence].
Qed.

Lemma free_cell_releases_one_cell_witness :
  ~ live (state_of (free_cell 1 (mkCompiler [] 0 2 [] None intrinsics))) 1 /\
  (live (state_of (free_cell 1 (mkCompiler [] 0 2 [] None intrinsics))) 0
   <-> live (mkCompiler [] 0 2 [] None intrinsics) 0).
Proof.
  destruct (free_cell_releases_one_cell (mkCompiler [] 0 2 [] None intrinsics) 1)
    as [H1 H2].
  split; [exact H1 | apply H2; discriminate].
Defined.

(** X3. Allocating with no gap at hand and freeing the cell at once
    restores the compiler: the high-water mark goes up and comes back. *)
Theorem allocate_then_free_restores (c : Compiler) :
  gaps c = [] ->
  (a <- allocate ;; free_cell a) c = (c, Ok tt).
Proof.
  intros Hg. unfold bind, allocate. rewrite Hg. unfold free_cell.
  cbn [non_allocated]. rewrite Z.eqb_refl. cbn [program current_index gaps variables functions].
  destruct c as [p i n g v f]. cbn in *. subst g. do 2 f_equal. lia.
Qed.

Lemma allocate_then_free_restores_witness :
  (a <- allocate ;; free_cell a) compiler = (compiler, Ok tt).
Proof. apply (allocate_then_free_restores compiler). reflexivity. Defined.

(** ** The emitter at run time *)

(** X4. The piece [goto k] emits, run with the head where the compiler
    predicts it, moves the head to [k] and changes neither the tape nor
    input and output. *)
Theorem goto_moves_the_head (k : Z) (c : Compiler) (m : machine) :
  head m = current_index c ->
  exists piece fuel,
    goto k c = (emit_at c [piece] k, Ok tt) /\
    run fuel piece m = Some (mkMachine (tape m) k (input m) (output m)).
Proof.
  intros Hh. exists (moves (current_index c) k).
  destruct (runs_steps (moves_instrs (current_index c) k) m (basic_moves _ _))
    as [fuel Hr].
  exists fuel. split; [apply goto_emit|].
  unfold run. rewrite (straight_parse _ _ (straight_moves _ _)).
  now rewrite Hr, (steps_moves _ _ _ Hh).
Qed.

Lemma goto_moves_the_head_witness :
  exists piece fuel,
    goto 3 compiler = (emit_at compiler [piece] 3, Ok tt) /\
    run fuel piece (mkMachine blank 0 [] []) = Some (mkMachine blank 3 [] []).
Proof. apply (goto_moves_the_head 3 compiler (mkMachine blank 0 [] [])). reflexivity. Defined.

(** ** Arithmetic with a constant, at run time *)

Lemma steps_decs (n : nat) (m : machine) :
  bytes (tape m) ->
  is_machine (steps (repeat IDec n) m)
             (cell_add (tape m) (head m) (- Z.of_nat n)) (head m) (input m) (output m).
Proof.
  revert m. induction n as [|n IH]; intros m Hb.
  - repeat split. intros i. cbn. unfold cell_add, update.
    destruct (Z.eqb_spec i (head m)) as [->|]; [|reflexivity].
    rewrite Z.add_0_r, Z.mod_small; [reflexivity | apply Hb].
  - cbn [repeat steps fold_left]. change (fold_left _ ?p ?x) with (steps p x).
    destruct (IH (step IDec m)) as (Hh & Ht & Hi & Ho).
    { cbn. apply bytes_update; [assumption | apply Z.mod_pos_bound; lia]. }
    repeat split; try assumption.
    intros i. rewrite Ht. cbn. unfold cell_add, update.
    rewrite Z.eqb_refl. destruct (i =? head m); [|reflexivity].
    rewrite Zplus_mod_idemp_l. f_equal. lia.
Qed.

Lemma goes_decs (n : nat) (d : machine) :
  goes (repeat IDec n) d
       (mkMachine (cell_add (tape d) (head d) (- Z.of_nat n)) (head d)
                  (input d) (output d)).
Proof.
  apply goes_like with (d' := steps (repeat IDec n) d).
  - apply goes_basic, basic_repeat. reflexivity.
  - intros Hb. unfold similar. cbn [tape head input output].
    apply steps_decs, Hb.
Qed.

Lemma straight_join_one (s : string) (p : list instr) :
  straight s p -> straight (join [s]) p.
Proof.
  intros H. rewrite <- (app_nil_r p).
  apply straight_join_cons; [exact H | apply straight_nil].
Qed.

Lemma assign_virtual_emit (t t' : pytype) (p k : Z) (c : Compiler) :
  Intrinsic.assign_virtual (Byte t p) (VirtualInteger t' (PyInt k)) c
  = (emit_at c [moves (current_index c) p; "[-]"; repeat_string "+" (Z.to_nat k)] p,
     Ok PyNone).
Proof.
  unfold Intrinsic.assign_virtual. do 6 sym_step.
  cbn [ret]. now rewrite !emit_at_emit_at, !current_index_emit_at.
Qed.

(** X5. [=] with a constant: for a byte in cell [p] and a non-negative
    constant [k], the intrinsic returns [None], and the text it emits,
    run on a tape of bytes with the head where the compiler predicts it,
    leaves [k mod 256] in cell [p] whatever it held, every other cell as
    it was, and the head on [p]. *)
Theorem assign_virtual_sets_the_cell (t t' : pytype) (p k : Z)
  (c : Compiler) (m : machine) :
  0 <= k -> head m = current_index c -> bytes (tape m) ->
  exists pieces fuel m',
    Intrinsic.assign_virtual (Byte t p) (VirtualInteger t' (PyInt k)) c
    = (emit_at c pieces p, Ok PyNone) /\
    run fuel (join pieces) m = Some m' /\
    head m' = p /\
    tape m' p = k mod 256 /\
    (forall i, i <> p -> tape m' i = tape m i) /\
    input m' = input m /\ output m' = output m.
Proof.
  intros Hk Hh Hb.
  set (P := (moves_instrs (current_index c) p ++ [ILoop [IDec]]
              ++ repeat IInc (Z.to_nat k))%list).
  set (d' := mkMachine (cell_add (update (tape m) p 0) p (Z.of_nat (Z.to_nat k))) p
                       (input m) (output m)).
  assert (Hs : straight (join [moves (current_index c) p; "[-]";
                               repeat_string "+" (Z.to_nat k)]) P).
  { apply straight_join_cons; [apply straight_moves|].
    apply straight_join_cons; [apply straight_zero|].
    apply straight_join_one, straight_repeat, straight_inc. }
  assert (Hg : goes P m d').
  { eapply goes_app; [apply goes_moves, Hh|].
    eapply goes_app; [apply goes_zero|]. cbn [tape head input output].
    apply (goes_incs (Z.to_nat k)). }
  destruct (goes_run _ _ _ _ Hs Hg Hb) as (fuel & m' & Hrun & (H1 & H2 & H3 & H4)).
  eexists _, fuel, m'. split; [apply assign_virtual_emit|].
  split; [exact Hrun|]. split; [exact H1|].
  unfold d' in *. cbn [tape head input output] in *. unfold cell_add, update in H2.
  split; [|split; [|split; assumption]].
  - rewrite H2. cbv beta. rewrite !Z.eqb_refl, Z2Nat.id by assumption.
    now rewrite Z.add_0_l.
  - intros i Hi. rewrite H2. cbv beta.
    destruct (Z.eqb_spec i p); [contradiction | reflexivity].
Qed.

Lemma assign_virtual_sets_the_cell_witness :
  exists pieces fuel m',
    Intrinsic.assign_virtual (Byte ByteType 1)
                             (VirtualInteger VirtualIntegerType (PyInt 300)) compiler
    = (emit_at compiler pieces 1, Ok PyNone) /\
    run fuel (join pieces) (mkMachine (update blank 1 9) 0 [] []) = Some m' /\
    head m' = 1 /\
    tape m' 1 = 300 mod 256 /\
    (forall i, i <> 1 -> tape m' i = update blank 1 9 i) /\
    input m' = [] /\ output m' = [].
Proof.
  apply (assign_virtual_sets_the_cell ByteType VirtualIntegerType 1 300 compiler
           (mkMachine (update blank 1 9) 0 [] [])).
  - lia.
  - reflexivity.
  - intros i. cbn. unfold update, blank. destruct (i =? 1); lia.
Defined.

Lemma iadd_virtual_emit (t t' : pytype) (p k : Z) (c : Compiler) :
  Intrinsic.iadd_virtual (Byte t p) (VirtualInteger t' (PyInt k)) c
  = (emit_at c [moves (current_index c) p; repeat_string "+" (Z.to_nat k)] p,
     Ok (Byte t p)).
Proof.
  unfold Intrinsic.iadd_virtual. do 5 sym_step.
  cbn [ret]. now rewrite !emit_at_emit_at, !current_index_emit_at.
Qed.

Lemma isub_virtual_emit (t t' : pytype) (p k : Z) (c : Compiler) :
  Intrinsic.isub_virtual (Byte t p) (VirtualInteger t' (PyInt k)) c
  = (emit_at c [moves (current_index c) p; repeat_string "-" (Z.to_nat k)] p,
     Ok (Byte t p)).
Proof.
  unfold Intrinsic.isub_virtual. do 5 sym_step.
  cbn [ret]. now rewrite !emit_at_emit_at, !current_index_emit_at.
Qed.

(** X6. [+=] and [-=] with a constant: for a byte in cell [p] and a
    non-negative constant [k], both intrinsics return their first
    operand, and the text they emit, run on a tape of bytes with the head
    where the compiler predicts it, leaves [(v + k) mod 256], respectively
    [(v - k) mod 256], in cell [p] that held [v], and every other cell as
    it was. *)
Theorem add_sub_virtual_change_the_cell (t t' : pytype) (p k : Z)
  (c : Compiler) (m : machine) :
  0 <= k -> head m = current_index c -> bytes (tape m) ->
  (exists pieces fuel m',
      Intrinsic.iadd_virtual (Byte t p) (VirtualInteger t' (PyInt k)) c
      = (emit_at c pieces p, Ok (Byte t p)) /\
      run fuel (join pieces) m = Some m' /\
      head m' = p /\
      tape m' p = (tape m p + k) mod 256 /\
      (forall i, i <> p -> tape m' i = tape m i)) /\
  (exists pieces fuel m',
      Intrinsic.isub_virtual (Byte t p) (VirtualInteger t' (PyInt k)) c
      = (emit_at c pieces p, Ok (Byte t p)) /\
      run fuel (join pieces) m = Some m' /\
      head m' = p /\
      tape m' p = (tape m p - k) mod 256 /\
      (forall i, i <> p -> tape m' i = tape m i)).
Proof.
  intros Hk Hh Hb. split.
  - assert (Hs : straight (join [moves (current_index c) p;
                                 repeat_string "+" (Z.to_nat k)])
                          (moves_instrs (current_index c) p
                             ++ repeat IInc (Z.to_nat k))%list).
    { apply straight_join_cons; [apply straight_moves|].
      apply straight_join_one, straight_repeat, straight_inc. }
    assert (Hg : goes (moves_instrs (current_index c) p
                         ++ repeat IInc (Z.to_nat k))%list m
                      (mkMachine (cell_add (tape m) p (Z.of_nat (Z.to_nat k))) p
                                 (input m) (output m))).
    { eapply goes_app; [apply goes_moves, Hh|].
      apply (goes_incs (Z.to_nat k) (mkMachine (tape m) p (input m) (output m))). }
    destruct (goes_run _ _ _ _ Hs Hg Hb) as (fuel & m' & Hrun & (H1 & H2 & _)).
    eexists _, fuel, m'. split; [apply iadd_virtual_emit|].
    split; [exact Hrun|]. split; [exact H1|].
    cbn [tape head] in *. unfold cell_add, update in H2. split.
    + rewrite H2. cbv beta. now rewrite Z.eqb_refl, Z2Nat.id.
    + intros i Hi. rewrite H2. cbv beta.
      destruct (Z.eqb_spec i p); [contradiction | reflexivity].
  - assert (Hs : straight (join [moves (current_index c) p;
                                 repeat_string "-" (Z.to_nat k)])
                          (moves_instrs (current_index c) p
                             ++ repeat IDec (Z.to_nat k))%list).
    { apply straight_join_cons; [apply straight_moves|].
      apply straight_join_one, straight_repeat, straight_dec. }
    assert (Hg : goes (moves_instrs (current_index c) p
                         ++ repeat IDec (Z.to_nat k))%list m
                      (mkMachine (cell_add (tape m) p (- Z.of_nat (Z.to_nat k))) p
                                 (input m) (output m))).
    { eapply goes_app; [apply goes_moves, Hh|].
      apply (goes_decs (Z.to_nat k) (mkMachine (tape m) p (input m) (output m))). }
    destruct (goes_run _ _ _ _ Hs Hg Hb) as (fuel & m' & Hrun & (H1 & H2 & _)).
    eexists _, fuel, m'. split; [apply isub_virtual_emit|].
    split; [exact Hrun|]. split; [exact H1|].
    cbn [tape head] in *. unfold cell_add, update in H2. split.
    + rewrite H2. cbv beta. rewrite Z.eqb_refl, Z2Nat.id by assumption. f_equal.
    + intros i Hi. rewrite H2. cbv beta.
      destruct (Z.eqb_spec i p); [contradiction | reflexivity].
Qed.

Lemma add_sub_virtual_change_the_cell_witness :
  (exists pieces fuel m',
      Intrinsic.iadd_virtual (Byte ByteType 0)
                             (VirtualInteger VirtualIntegerType (PyInt 3)) compiler
      = (emit_at compiler pieces 0, Ok (Byte ByteType 0)) /\
      run fuel (join pieces) (mkMachine (update blank 0 254) 0 [] []) = Some m' /\
      head m' = 0 /\
      tape m' 0 = (update blank 0 254 0 + 3) mod 256 /\
      (forall i, i <> 0 -> tape m' i = update blank 0 254 i)) /\
  (exists pieces fuel m',
      Intrinsic.isub_virtual (Byte ByteType 0)
                             (VirtualInteger VirtualIntegerType (PyInt 3)) compiler
      = (emit_at compiler pieces 0, Ok (Byte ByteType 0)) /\
      run fuel (join pieces) (mkMachine (update blank 0 254) 0 [] []) = Some m' /\
      head m' = 0 /\
      tape m' 0 = (update blank 0 254 0 - 3) mod 256 /\
      (forall i, i <> 0 -> tape m' i = update blank 0 254 i)).
Proof.
  apply (add_sub_virtual_change_the_cell ByteType VirtualIntegerType 0 3 compiler
           (mkMachine (update blank 0 254) 0 [] [])).
  - lia.
  - reflexivity.
  - intros i. cbn. unfold update, blank. destruct (i =? 0); lia.
Defined.

(** ** Intrinsics on bytes, at run time *)

Lemma free_cell_eq (i : Z) (c : Compiler) :
  free_cell i c = (state_of (free_cell i c), Ok tt).
Proof. unfold free_cell. now destruct (_ =? _). Qed.

Lemma free_cell_not_live (i : Z) (c : Compiler) :
  ~ live (state_of (free_cell i c)) i.
Proof.
  unfold free_cell, state_of, live.
  destruct (Z.eqb_spec (i + 1) (non_allocated c)); cbn [fst non_allocated gaps].
  - lia.
  - intros [_ H]. apply H. apply in_or_app. right. now left.
Qed.

Lemma program_free_cell (i : Z) (c : Compiler) :
  program (state_of (free_cell i c)) = program c.
Proof. unfold free_cell. now destruct (_ =? _). Qed.

Lemma live_emit_at (c : Compiler) (pieces : list string) (k i : Z) :
  live (emit_at c pieces k) i <-> live c i.
Proof. reflexivity. Qed.

Lemma iadd_emit (t t' : pytype) (px py : Z) (c : Compiler) :
  Intrinsic.iadd (Byte t px) (Byte t' py) c
  = (state_of (free_cell py
                 (emit_at c (move_cell_pieces (current_index c) py [px] 1) py)),
     Ok (Byte t px)).
Proof.
  unfold Intrinsic.iadd. do 3 sym_step. cbn [free].
  now rewrite (bind_ok _ _ _ _ _ (free_cell_eq _ _)).
Qed.

(** X7. [+=] on two bytes in different cells returns its first operand
    and releases the second; the text it emits, run on a tape of bytes
    with the head where the compiler predicts it, leaves the sum modulo
    256 in the first cell, zero in the second and every other cell as it
    was. *)
Theorem iadd_adds_and_frees (t t' : pytype) (px py : Z) (c : Compiler) (m : machine) :
  px <> py -> head m = current_index c -> bytes (tape m) ->
  exists c' pieces fuel m',
    Intrinsic.iadd (Byte t px) (Byte t' py) c = (c', Ok (Byte t px)) /\
    program c' = (program c ++ pieces)%list /\
    ~ live c' py /\
    run fuel (join pieces) m = Some m' /\
    tape m' px = (tape m px + tape m py) mod 256 /\
    tape m' py = 0 /\
    (forall i, i <> px -> i <> py -> tape m' i = tape m i).
Proof.
  intros Hne Hh Hb.
  assert (Hnot : ~ In py [px]) by (cbn; intros [H|[]]; congruence).
  pose proof (goes_move_cell (current_index c) py [px] (Z.to_nat 1) m Hnot Hh) as Hg.
  destruct (goes_run _ _ _ _ (straight_move_cell (current_index c) py [px] 1) Hg Hb)
    as (fuel & m' & Hrun & (_ & H2 & _)).
  cbn [tape] in H2.
  eexists _, (move_cell_pieces (current_index c) py [px] 1), fuel, m'.
  split; [apply iadd_emit|]. split; [now rewrite program_free_cell|].
  split; [apply free_cell_not_live|]. split; [exact Hrun|].
  split; [|split].
  - rewrite H2. destruct (Z.eqb_spec px py); [contradiction|].
    rewrite occurrences_cons, Z.eqb_refl. f_equal. unfold occurrences. cbn. lia.
  - rewrite H2. now rewrite Z.eqb_refl.
  - intros i Hx Hy. rewrite H2. destruct (Z.eqb_spec i py); [contradiction|].
    rewrite occurrences_cons. destruct (Z.eqb_spec i px); [contradiction|].
    unfold occurrences. cbn [count_occ].
    replace (tape m i + tape m py * ((0 + Z.of_nat 0) * Z.of_nat (Z.to_nat 1)))
      with (tape m i) by lia.
    apply Z.mod_small, Hb.
Qed.

Lemma iadd_adds_and_frees_witness :
  exists c' pieces fuel m',
    Intrinsic.iadd (Byte ByteType 0) (Byte ByteType 1)
                   (mkCompiler [] 0 2 [] None intrinsics)
    = (c', Ok (Byte ByteType 0)) /\
    program c' = ([] ++ pieces)%list /\
    ~ live c' 1 /\
    run fuel (join pieces) (mkMachine (update (update blank 0 200) 1 100) 0 [] [])
    = Some m' /\
    tape m' 0 = (update (update blank 0 200) 1 100 0
                 + update (update blank 0 200) 1 100 1) mod 256 /\
    tape m' 1 = 0 /\
    (forall i, i <> 0 -> i <> 1 -> tape m' i = update (update blank 0 200) 1 100 i).
Proof.
  apply (iadd_adds_and_frees ByteType ByteType 0 1
           (mkCompiler [] 0 2 [] None intrinsics)
           (mkMachine (update (update blank 0 200) 1 100) 0 [] [])).
  - discriminate.
  - reflexivity.
  - intros i. cbn. unfold update, blank.
    destruct (i =? 1); [lia|]. destruct (i =? 0); lia.
Defined.




Lemma goes_nnot_value (from p y : Z) (d : machine) :
  p <> y -> head d = from ->
  exists d', goes (nnot_instrs from p y) d d' /\ head d' = p /\
             tape d' p = 0 /\
             tape d' y = (if tape d p =? 0 then 1 else 0) /\
             (forall i, i <> p -> i <> y -> tape d' i = tape d i) /\
             input d' = input d /\ output d' = output d.
Proof.
  intros Hne Hh. unfold nnot_instrs.
  set (d4 := mkMachine (cell_add (update (tape d) y 0) y (Z.of_nat 1)) p
                       (input d) (output d)).
  assert (Hpre : goes (moves_instrs from y ++ [ILoop [IDec]; IInc] ++ moves_instrs y p)
                      d d4).
  { eapply goes_app; [apply goes_moves, Hh|].
    eapply goes_cons; [apply goes_zero|]. cbn [tape head input output].
    eapply goes_cons; [apply (goes_incs 1)|]. cbn [tape head input output].
    apply (goes_moves y p). reflexivity. }
  assert (Hp4 : tape d4 p = tape d p).
  { cbn. unfold cell_add, update.
    destruct (Z.eqb_spec p y); [contradiction | reflexivity]. }
  assert (Hy4 : tape d4 y = 1).
  { cbn. unfold cell_add, update. now rewrite !Z.eqb_refl. }
  assert (Ho4 : forall i, i <> y -> tape d4 i = tape d i).
  { intros i Hi. cbn. unfold cell_add, update.
    destruct (Z.eqb_spec i y); [contradiction | reflexivity]. }
  destruct (Z.eqb_spec (tape d p) 0) as [Hz|Hnz].
  - exists d4. split; [|repeat split; try congruence].
    + eapply goes_app; [exact Hpre|]. apply goes_loop_skip.
      change (tape d4 p = 0). congruence.
    + intros i _ Hi. now apply Ho4.
  - set (d6 := mkMachine (update (tape d4) p 0) y (input d) (output d)).
    set (d8 := mkMachine (tape (step IDec d6)) p (input d) (output d)).
    assert (Hp8 : tape d8 p = 0).
    { cbn. unfold update. destruct (Z.eqb_spec p y); [contradiction|].
      now rewrite Z.eqb_refl. }
    assert (Hy8 : tape d8 y = 0).
    { unfold d8, d6. cbn [tape step head]. unfold update at 1. rewrite Z.eqb_refl.
      unfold update. destruct (Z.eqb_spec y p); [congruence|]. now rewrite Hy4. }
    exists d8. split; [|repeat split; try assumption].
    + eapply goes_app; [exact Hpre|].
      apply goes_loop_once; [change (tape d4 p <> 0); congruence | | exact Hp8].
      unfold nnot_body.
      eapply goes_app; [apply goes_zero|]. cbn [tape head input output].
      eapply goes_app; [apply goes_moves; reflexivity|]. cbn [tape head input output].
      eapply goes_app; [apply (goes_basic [IDec]); reflexivity|].
      apply (goes_moves y p). reflexivity.
    + intros i Hp Hy. unfold d8, d6. cbn [tape step head]. unfold update.
      destruct (Z.eqb_spec i y); [contradiction|].
      destruct (Z.eqb_spec i p); [contradiction|]. now apply Ho4.
Qed.

(** X9. [!] computes logical negation: for a byte operand in a live cell
    [p], the text it emits, run on a tape of bytes with the head where
    the compiler predicts it, leaves 1 in the result cell when the
    operand was zero and 0 otherwise, clears the operand, and leaves
    every other cell, the input and the output as they were. *)
Theorem nnot_computes_logical_not (t : pytype) (p : Z) (c : Compiler) (m : machine) :
  live c p -> head m = current_index c -> bytes (tape m) ->
  exists c' y pieces fuel m',
    Intrinsic.nnot (Byte t p) c = (c', Ok (Byte ByteType y)) /\
    program c' = (program c ++ pieces)%list /\
    run fuel (join pieces) m = Some m' /\
    tape m' y = (if tape m p =? 0 then 1 else 0) /\
    tape m' p = 0 /\
    (forall i, i <> p -> i <> y -> tape m' i = tape m i) /\
    input m' = input m /\ output m' = output m.
Proof.
  intros Hlive Hh Hb.
  destruct (live_after_allocate c p Hlive) as [_ Hy].
  destruct (goes_nnot_value (current_index c) p (next_cell c) m ltac:(congruence) Hh)
    as (d' & Hg & _ & Hzp & Hzy & Hoth & Hin & Hout).
  destruct (goes_run _ _ m d' (straight_nnot (current_index c) p (next_cell c)) Hg Hb)
    as (fuel & m' & Hrun & (_ & Ht & Hi & Ho)).
  exists (emit_at (after_allocate c)
                  (nnot_pieces (current_index c) p (next_cell c)) p),
         (next_cell c), (nnot_pieces (current_index c) p (next_cell c)), fuel, m'.
  split; [apply nnot_emit|].
  split; [cbn [emit_at program]; now rewrite program_after_allocate|].
  split; [exact Hrun|].
  split; [now rewrite Ht|]. split; [now rewrite Ht|].
  split; [intros i H1 H2; rewrite Ht; now apply Hoth|].
  split; congruence.
Qed.

Lemma nnot_computes_logical_not_witness :
  exists c' y pieces fuel m',
    Intrinsic.nnot (Byte ByteType 0) (mkCompiler [] 0 1 [] None intrinsics)
    = (c', Ok (Byte ByteType y)) /\
    program c' = ([] ++ pieces)%list /\
    run fuel (join pieces) (mkMachine (update blank 0 7) 0 [] []) = Some m' /\
    tape m' y = (if update blank 0 7 0 =? 0 then 1 else 0) /\
    tape m' 0 = 0 /\
    (forall i, i <> 0 -> i <> y -> tape m' i = update blank 0 7 i) /\
    input m' = [] /\ output m' = [].
Proof.
  apply (nnot_computes_logical_not ByteType 0
           (mkCompiler [] 0 1 [] None intrinsics)
           (mkMachine (update blank 0 7) 0 [] [])).
  - split; [cbn; lia | cbn; tauto].
  - reflexivity.
  - intros i. cbn. unfold update, blank. destruct (i =? 0); lia.
Defined.

(** ** Operations that cannot succeed *)

Lemma copy_byte_raises (t : pytype) (p : Z) (c : Compiler) :
  exists c' e, copy (Byte t p) c = (c', Raise e).
Proof.
  cbn [copy]. unfold Byte_copy.
  rewrite (bind_ok _ _ _ _ _ (allocate_eq c)).
  rewrite (bind_ok _ _ _ _ _ (allocate_eq (after_allocate c))).
  do 4 sym_step.
  erewrite bind_ok by apply free_cell_eq.
  eexists _, _. reflexivity.
Qed.

(** X10. [*=] on two operands never returns: whatever the operands and
    the compiler, the intrinsic raises, because it starts by copying its
    first operand and [Byte.copy] cannot build its result.  For the same
    reason a [Copy] node around an expression that evaluates to a byte
    always raises. *)
Theorem imul_and_copy_of_a_byte_always_raise :
  (forall x y c, exists c' e, Intrinsic.imul x y c = (c', Raise e)) /\
  (forall fuel expr c c1 t p,
      evaluate fuel expr c = (c1, Ok (Byte t p)) ->
      exists c' e, evaluate (S fuel) (Copy expr) c = (c', Raise e)).
Proof.
  split.
  - intros x y c. unfold Intrinsic.imul.
    destruct x as [| n | items | ty | t p | t vs | t v | t vs];
      try (eexists _, _; reflexivity).
    destruct (copy_byte_raises t p c) as (c' & e & H).
    exists c', e. now rewrite (bind_raise _ _ _ _ _ H).
  - intros fuel expr c c1 t p H. cbn [evaluate].
    rewrite (bind_ok _ _ _ _ _ H). apply copy_byte_raises.
Qed.

Lemma imul_and_copy_of_a_byte_always_raise_witness :
  exists c' e,
    evaluate 2 (Copy (FunctionCall "read" [])) compiler = (c', Raise e).
Proof.
  apply (proj2 imul_and_copy_of_a_byte_always_raise 1%nat (FunctionCall "read" [])
               compiler (state_of (Intrinsic.read compiler)) ByteType 0).
  reflexivity.
Defined.

(** ** The precondition of the move idiom *)

Lemma exec_basic_result (f : nat) (p : list instr) (m m' : machine) :
  forallb basic p = true -> exec f p m = Some m' -> m' = steps p m.
Proof.
  revert p m. induction f as [|f IH]; intros p m Hb H; [discriminate|].
  destruct p as [|i p]; [now injection H as <-|].
  cbn [forallb] in Hb. apply andb_prop in Hb as [Hi Hp].
  destruct i; try discriminate; cbn [exec steps fold_left] in *;
    apply (IH p _ Hp H).
Qed.

(** A loop whose body is loop-free and never brings the cell under the
    head to zero runs out of any amount of fuel. *)
Lemma loop_spins (body : list instr) (I : machine -> Prop) :
  forallb basic body = true ->
  (forall m, I m -> tape m (head m) <> 0 /\ I (steps body m)) ->
  forall f m, I m -> exec f [ILoop body] m = None.
Proof.
  intros Hb HI. induction f as [|f IH]; intros m Hm; [reflexivity|].
  cbn [exec]. destruct (HI m Hm) as [Hnz Hnext].
  destruct (Z.eqb_spec (tape m (head m)) 0); [contradiction|].
  destruct (exec f body m) as [m'|] eqn:E; [|reflexivity].
  rewrite (exec_basic_result f body m m' Hb E). apply IH, Hnext.
Qed.

Lemma exec_after_basic (p1 p2 : list instr) (m : machine) :
  forallb basic p1 = true ->
  (forall f, exec f p2 (steps p1 m) = None) ->
  forall f, exec f (p1 ++ p2) m = None.
Proof.
  revert m. induction p1 as [|i p1 IH]; intros m Hb H f; [apply H|].
  cbn [forallb] in Hb. apply andb_prop in Hb as [Hi Hp].
  destruct f as [|f]; [reflexivity|].
  destruct i; try discriminate; cbn [exec app]; apply IH; assumption.
Qed.

(** X11. The precondition of [move_cell] is needed: with the source as
    its own target and the default multiplier, [move_cell] returns
    normally, but the loop it emits gives back what it takes, and on a
    tape of bytes with a non-zero source it exhausts every amount of
    fuel. *)
Theorem move_cell_onto_itself_spins (p : Z) (c : Compiler) (m : machine) :
  head m = current_index c -> bytes (tape m) -> tape m p <> 0 ->
  exists pieces instrs,
    move_cell p [p] (PyInt 1) c = (emit_at c pieces p, Ok tt) /\
    parse (join pieces) = Some instrs /\
    forall fuel, exec fuel instrs m = None.
Proof.
  intros Hh Hb Hnz.
  exists (move_cell_pieces (current_index c) p [p] 1),
         (move_cell_instrs (current_index c) p [p] (Z.to_nat 1)).
  split; [apply move_cell_emit|].
  split; [apply straight_parse, straight_move_cell|].
  unfold move_cell_instrs.
  apply exec_after_basic; [apply basic_moves|].
  rewrite (steps_moves _ _ _ Hh).
  assert (Hbody : move_body p [p] (Z.to_nat 1) = [IDec; IInc]).
  { unfold move_body. cbn [targets_instrs List.last].
    now rewrite !moves_instrs_same. }
  rewrite Hbody. intros f.
  apply (loop_spins [IDec; IInc]
           (fun m' => head m' = p /\ 0 < tape m' p < 256)); [reflexivity| |].
  - intros m' [H1 H2]. split; [rewrite H1; lia|].
    cbn. rewrite H1. unfold update. rewrite !Z.eqb_refl.
    split; [reflexivity|].
    rewrite Zplus_mod_idemp_l, Z.mod_small; lia.
  - cbn. split; [reflexivity|]. pose proof (Hb p). lia.
Qed.

Lemma move_cell_onto_itself_spins_witness :
  exists pieces instrs,
    move_cell 0 [0] (PyInt 1) compiler = (emit_at compiler pieces 0, Ok tt) /\
    parse (join pieces) = Some instrs /\
    forall fuel, exec fuel instrs (mkMachine (update blank 0 1) 0 [] []) = None.
Proof.
  apply (move_cell_onto_itself_spins 0 compiler (mkMachine (update blank 0 1) 0 [] [])).
  - reflexivity.
  - intros i. cbn. unfold update, blank. destruct (i =? 0); lia.
  - cbn. discriminate.
Defined.

(** ** Comparison *)

Lemma straight_sub (from x y : Z) :
  straight (join (sub_pieces from x y)) (sub_instrs from x y).
Proof.
  unfold sub_pieces, sub_instrs. apply straight_join_app.
  - apply straight_join_one, straight_moves.
  - apply straight_join_loop. unfold sub_body.
    apply (straight_join_cons "-" _ [IDec]); [apply straight_dec|].
    apply straight_join_cons; [apply straight_moves|].
    apply straight_join_cons; [apply straight_dec|].
    apply straight_join_one, straight_moves.
Qed.

Lemma basic_sub_body (x y : Z) : forallb basic (sub_body x y) = true.
Proof.
  unfold sub_body. cbn [forallb basic andb].
  now rewrite !forallb_app, !basic_moves.
Qed.

Lemma steps_sub_body (x y : Z) (m : machine) :
  x <> y -> head m = y ->
  steps (sub_body x y) m
  = mkMachine (update (update (tape m) y ((tape m y - 1) mod 256))
                      x ((tape m x - 1) mod 256))
              y (input m) (output m).
Proof.
  intros Hne Hh. unfold sub_body.
  change (steps (IDec :: ?p) m) with (steps p (step IDec m)).
  rewrite !steps_app. rewrite (steps_moves y x) by exact Hh.
  cbn [steps fold_left step tape head input output].
  rewrite (steps_moves x y) by reflexivity.
  cbn [tape head input output]. rewrite Hh. f_equal. f_equal.
  unfold update. destruct (Z.eqb_spec x y); [contradiction | reflexivity].
Qed.

Lemma iter_sub_body (x y : Z) :
  x <> y ->
  forall (n : nat) (m : machine),
    bytes (tape m) -> head m = y -> Z.of_nat n <= tape m y ->
    is_machine (Nat.iter n (steps (sub_body x y)) m)
      (fun i => if i =? y then tape m y - Z.of_nat n
                else if i =? x then (tape m x - Z.of_nat n) mod 256
                else tape m i)
      y (input m) (output m)
    /\ bytes (tape (Nat.iter n (steps (sub_body x y)) m)).
Proof.
  intros Hne. induction n as [|n IH]; intros m Hb Hh Hn.
  - cbn [Nat.iter nat_rect]. split; [|exact Hb]. repeat split; [exact Hh|].
    intros i. destruct (Z.eqb_spec i y) as [->|_]; [lia|].
    destruct (Z.eqb_spec i x) as [->|_]; [|reflexivity].
    rewrite Z.sub_0_r, Z.mod_small; [reflexivity | apply Hb].
  - change (Nat.iter (S n) ?F m) with (F (Nat.iter n F m)).
    destruct (IH m Hb Hh ltac:(lia)) as ((Hh1 & Ht1 & Hi1 & Ho1) & Hb1).
    set (m1 := Nat.iter n (steps (sub_body x y)) m) in *.
    rewrite (steps_sub_body x y m1 Hne Hh1).
    split.
    + repeat split; cbn [head tape input output]; try assumption.
      intros i. unfold update.
      destruct (Z.eqb_spec i x) as [->|Hix].
      * destruct (Z.eqb_spec x y); [contradiction|]. rewrite Ht1.
        destruct (Z.eqb_spec x y); [contradiction|]. rewrite Z.eqb_refl.
        rewrite Zminus_mod_idemp_l. f_equal. lia.
      * destruct (Z.eqb_spec i y) as [->|Hiy].
        -- rewrite Ht1, Z.eqb_refl. pose proof (Hb y). rewrite Z.mod_small; lia.
        -- rewrite Ht1. destruct (Z.eqb_spec i y); [contradiction|].
           destruct (Z.eqb_spec i x); [contradiction | reflexivity].
    + cbn [tape]. apply bytes_update; [|apply Z.mod_pos_bound; lia].
      apply bytes_update; [assumption | apply Z.mod_pos_bound; lia].
Qed.

Lemma goes_sub (from x y : Z) (d : machine) :
  x <> y -> head d = from ->
  goes (sub_instrs from x y) d
       (mkMachine (fun i => if i =? y then 0
                            else if i =? x then (tape d x - tape d y) mod 256
                            else tape d i)
                  y (input d) (output d)).
Proof.
  intros Hne Hh Hb m (H1 & H2 & H3 & H4).
  assert (Hbm : bytes (tape m)) by (eapply bytes_ext; [exact H2 | exact Hb]).
  unfold sub_instrs.
  set (m1 := mkMachine (tape m) y (input m) (output m)).
  set (F := steps (sub_body x y)).
  set (n := Z.to_nat (tape m y)).
  assert (Hn : Z.of_nat n = tape m y) by (pose proof (Hbm y); lia).
  destruct (iter_sub_body x y Hne n m1 Hbm eq_refl ltac:(cbn; lia))
    as ((G1 & G2 & G3 & G4) & Hb').
  exists (Nat.iter n F m1). split; [|split].
  - apply (runs_app _ _ m m1).
    + assert (Hm1 : steps (moves_instrs from y) m = m1)
        by (apply steps_moves; congruence).
      rewrite <- Hm1. apply runs_steps, basic_moves.
    + refine (proj1 (runs_loop_count (sub_body x y) F
                       (fun m' => bytes (tape m') /\ head m' = y) _ n m1 _ _)).
      * intros m' [Hbm' Hhm'] Hpos. unfold F.
        rewrite (steps_sub_body x y m' Hne Hhm'). cbn [tape head].
        split; [|split; [split|]].
        -- rewrite <- (steps_sub_body x y m' Hne Hhm').
           apply runs_steps, basic_sub_body.
        -- apply bytes_update; [|apply Z.mod_pos_bound; lia].
           apply bytes_update; [assumption | apply Z.mod_pos_bound; lia].
        -- reflexivity.
        -- unfold update. destruct (Z.eqb_spec y x); [congruence|].
           rewrite Z.eqb_refl. pose proof (Hbm' y). rewrite Hhm' in Hpos.
           rewrite Hhm'. rewrite Z.mod_small; lia.
      * split; [exact Hbm | reflexivity].
      * cbn. lia.
  - assert (Hpt : forall i, tape (Nat.iter n F m1) i =
                    (if i =? y then 0
                     else if i =? x then (tape d x - tape d y) mod 256
                     else tape d i)).
    { intros i. unfold F. rewrite G2. cbn [tape m1]. rewrite Hn, !H2.
      destruct (i =? y); [lia | reflexivity]. }
    repeat split; cbn [tape head input output]; [exact G1 | exact Hpt | | ];
      unfold F; cbn [input output m1] in *; congruence.
  - cbn [tape]. intros i. pose proof (Hb' i) as Hi. rewrite G2 in Hi.
    cbn [tape m1] in Hi. rewrite Hn, !H2 in Hi.
    destruct (i =? y); [lia | exact Hi].
Qed.

Lemma after_allocate_emit_at (c : Compiler) (pieces : list string) (i : Z) :
  after_allocate (emit_at c pieces i) = emit_at (after_allocate c) pieces i.
Proof.
  unfold after_allocate. change (gaps (emit_at c pieces i)) with (gaps c).
  destruct (gaps c) eqn:E; reflexivity.
Qed.

Lemma eq_emit (t t' : pytype) (px py : Z) (c : Compiler) :
  Intrinsic.eq (Byte t px) (Byte t' py) c
  = (state_of
       (free_cell py
          (state_of
             (free_cell px
                (emit_at (after_allocate c)
                         (sub_pieces (current_index c) px py
                            ++ nnot_pieces py px (next_cell c))
                         px)))),
     Ok (Byte ByteType (next_cell c))).
Proof.
  unfold Intrinsic.eq. do 2 sym_step.
  erewrite bind_ok;
    [| apply loop_emit with (pieces := ["-"; moves py px; "-"; moves px py]) ].
  2:{ do 5 sym_step. rewrite goto_emit.
      now rewrite !emit_at_emit_at, !current_index_emit_at. }
  rewrite !emit_at_emit_at, !current_index_emit_at.
  rewrite (bind_ok _ _ _ _ _ (new_byte_eq _)).
  rewrite after_allocate_emit_at.
  change (next_cell (emit_at c ?l ?i)) with (next_cell c).
  set (z := next_cell c).
  do 5 sym_step. rewrite !emit_at_emit_at, !current_index_emit_at.
  erewrite bind_ok;
    [| apply loop_emit with (pieces := ["[-]"; moves px z; "-"; moves z px]) ].
  2:{ do 5 sym_step. rewrite goto_emit.
      now rewrite !emit_at_emit_at, !current_index_emit_at. }
  rewrite !emit_at_emit_at, !current_index_emit_at. cbn [free].
  rewrite (bind_ok _ _ _ _ _ (free_cell_eq _ _)).
  rewrite (bind_ok _ _ _ _ _ (free_cell_eq _ _)).
  reflexivity.
Qed.

Lemma live_free_cell_other (c : Compiler) (i j : Z) :
  j <> i -> (live (state_of (free_cell i c)) j <-> live c j).
Proof.
  intros Hj. unfold free_cell, state_of, live.
  destruct (Z.eqb_spec (i + 1) (non_allocated c)); cbn [fst non_allocated gaps].
  - split; intros [H1 H2]; (split; [lia | exact H2]).
  - split; intros [H1 H2]; (split; [exact H1|]).
    + intros Hin. apply H2. apply in_or_app. now left.
    + intros Hin. apply in_app_or in Hin as [Hin|[Hin|[]]]; [tauto | congruence].
Qed.

Lemma mod_diff_zero (a b : Z) :
  0 <= a < 256 -> 0 <= b < 256 -> ((a - b) mod 256 =? 0) = (a =? b).
Proof.
  intros Ha Hb. destruct (Z.eqb_spec a b) as [->|Hne].
  - now rewrite Z.sub_diag.
  - apply Z.eqb_neq. intros H.
    apply Z.mod_divide in H; [|lia]. destruct H as [q Hq]. lia.
Qed.

(** X12. [==] on two bytes in different live cells returns a byte in a
    third cell and releases both operands; the text it emits, run on a
    tape of bytes with the head where the compiler predicts it, leaves 1
    in the result cell when the operands held the same byte and 0
    otherwise, and zero in both operand cells. *)
Theorem eq_compares_and_frees (t t' : pytype) (px py : Z) (c : Compiler) (m : machine) :
  px <> py -> live c px -> live c py ->
  head m = current_index c -> bytes (tape m) ->
  exists c' z pieces fuel m',
    Intrinsic.eq (Byte t px) (Byte t' py) c = (c', Ok (Byte ByteType z)) /\
    z <> px /\ z <> py /\
    program c' = (program c ++ pieces)%list /\
    ~ live c' px /\ ~ live c' py /\
    run fuel (join pieces) m = Some m' /\
    tape m' z = (if tape m px =? tape m py then 1 else 0) /\
    tape m' px = 0 /\ tape m' py = 0.
Proof.
  intros Hne Hlx Hly Hh Hb.
  destruct (live_after_allocate c px Hlx) as [_ Hzx].
  destruct (live_after_allocate c py Hly) as [_ Hzy].
  set (z := next_cell c) in *.
  set (d1 := mkMachine (fun i => if i =? py then 0
                                 else if i =? px then (tape m px - tape m py) mod 256
                                 else tape m i)
                       py (input m) (output m)).
  pose proof (goes_sub (current_index c) px py m Hne Hh) as Hg1. fold d1 in Hg1.
  destruct (goes_nnot_value py px z d1 ltac:(congruence) eq_refl)
    as (d' & Hg2 & _ & Hzp & Hzz & Hoth & _).
  assert (Hs : straight (join (sub_pieces (current_index c) px py
                                 ++ nnot_pieces py px z))
                        (sub_instrs (current_index c) px py
                           ++ nnot_instrs py px z)%list).
  { apply straight_join_app; [apply straight_sub | apply straight_nnot]. }
  destruct (goes_run _ _ _ _ Hs (goes_app _ _ _ _ _ Hg1 Hg2) Hb)
    as (fuel & m' & Hrun & (_ & Ht & _)).
  eexists _, z, _, fuel, m'.
  split; [apply eq_emit|]. split; [exact Hzx|]. split; [exact Hzy|].
  split; [now rewrite !program_free_cell; cbn [emit_at program];
          rewrite program_after_allocate|].
  split.
  { rewrite live_free_cell_other by exact Hne. apply free_cell_not_live. }
  split; [apply free_cell_not_live|]. split; [exact Hrun|].
  split; [|split].
  - rewrite Ht, Hzz. unfold d1. cbn [tape].
    destruct (Z.eqb_spec px py); [contradiction|]. rewrite Z.eqb_refl.
    now rewrite mod_diff_zero by apply Hb.
  - now rewrite Ht.
  - rewrite Ht, Hoth by congruence. unfold d1. cbn [tape]. now rewrite Z.eqb_refl.
Qed.

Lemma eq_compares_and_frees_witness :
  exists c' z pieces fuel m',
    Intrinsic.eq (Byte ByteType 0) (Byte ByteType 1)
                 (mkCompiler [] 0 2 [] None intrinsics)
    = (c', Ok (Byte ByteType z)) /\
    z <> 0 /\ z <> 1 /\
    program c' = ([] ++ pieces)%list /\
    ~ live c' 0 /\ ~ live c' 1 /\
    run fuel (join pieces) (mkMachine (update (update blank 0 5) 1 5) 0 [] [])
    = Some m' /\
    tape m' z = (if update (update blank 0 5) 1 5 0 =? update (update blank 0 5) 1 5 1
                 then 1 else 0) /\
    tape m' 0 = 0 /\ tape m' 1 = 0.
Proof.
  apply (eq_compares_and_frees ByteType ByteType 0 1
           (mkCompiler [] 0 2 [] None intrinsics)
           (mkMachine (update (update blank 0 5) 1 5) 0 [] [])).
  - discriminate.
  - split; [cbn; lia | cbn; tauto].
  - split; [cbn; lia | cbn; tauto].
  - reflexivity.
  - intros i. cbn. unfold update, blank.
    destruct (i =? 1); [lia|]. destruct (i =? 0); lia.
Defined.

(** ** Equality and hashes of type objects *)

Lemma type_eq_sym (a b : pytype) :
  type_eq a (PyType b) = type_eq b (PyType a).
Proof.
  revert b. induction a as [|a IH n| |]; intros [|b n'| |]; cbn; auto.
Qed.

Lemma type_eq_trans (a b c : pytype) :
  type_eq a (PyType b) = true -> type_eq b (PyType c) = true ->
  type_eq a (PyType c) = true.
Proof.
  revert b c. induction a as [|a IH n| |]; intros [|b n'| |] [|c n''| |];
    cbn; try discriminate; auto.
  apply IH.
Qed.

(** X13. Equality between type objects is symmetric and transitive, it
    ignores the sizes of list types, and a type object equals itself
    exactly when it is not, and is not a list type over, the virtual
    integer type. *)
Theorem type_eq_partial_equivalence :
  (forall a b, type_eq a (PyType b) = type_eq b (PyType a)) /\
  (forall a b c, type_eq a (PyType b) = true -> type_eq b (PyType c) = true ->
                 type_eq a (PyType c) = true) /\
  (forall t n t' n',
      type_eq (ListType t n) (PyType (ListType t' n')) = type_eq t (PyType t')) /\
  (forall a, type_eq a (PyType a) = negb (mentions_virtual_integer a)).
Proof.
  split; [exact type_eq_sym|]. split; [exact type_eq_trans|].
  split; [reflexivity|].
  induction a as [|a IH n| |]; cbn; auto.
Qed.

Lemma type_eq_partial_equivalence_witness :
  type_eq (ListType ByteType 3) (PyType (ListType ByteType 8)) = true /\
  type_eq (ListType VirtualIntegerType 3) (PyType (ListType VirtualIntegerType 3))
  = false.
Proof.
  destruct type_eq_partial_equivalence as (_ & Ht & _ & Hr).
  split.
  - apply (Ht (ListType ByteType 3) (ListType ByteType 5) (ListType ByteType 8));
      reflexivity.
  - apply (Hr (ListType VirtualIntegerType 3)).
Defined.

Lemma type_eq_hash (a b : pytype) :
  type_eq a (PyType b) = true -> type_hash a = type_hash b.
Proof.
  revert b. induction a as [|a IH n| |]; intros [|b n'| |]; cbn;
    try discriminate; auto.
  intros H. now rewrite (IH b H).
Qed.

Lemma type_is_hash (a b : pytype) :
  type_is a b = true -> type_hash a = type_hash b.
Proof. destruct a, b; cbn; try discriminate; auto. Qed.

(** X14. A key that the function table matches has the hashes of the
    key looked up: types that are identical or equal by [__eq__] have the
    same [__hash__], item by item in the parameter tuple. *)
Theorem matching_keys_have_equal_hashes (stored looked : list pytype) :
  params_eq stored looked = true ->
  map type_hash stored = map type_hash looked.
Proof.
  revert looked. induction stored as [|a stored IH]; intros [|b looked] H;
    try discriminate; [reflexivity|].
  cbn [params_eq] in H. apply andb_prop in H as [Hab Hrest].
  cbn [map]. f_equal; [|now apply IH].
  apply orb_prop in Hab as [Hab|Hab]; [now apply type_is_hash | now apply type_eq_hash].
Qed.

Lemma matching_keys_have_equal_hashes_witness :
  map type_hash [ByteType; ListType VirtualListType 2]
  = map type_hash [ByteType; ListType VirtualListType 7].
Proof.
  apply (matching_keys_have_equal_hashes
           [ByteType; ListType VirtualListType 2]
           [ByteType; ListType VirtualListType 7]).
  reflexivity.
Defined.

(** ** The variable environment *)

Lemma dict_zip_other (n : string) (names : list string) (args : list value)
  (acc : gmap string value) :
  ~ In n names -> dict_zip names args acc !! n = acc !! n.
Proof.
  revert args acc. induction names as [|x names IH]; intros args acc Hn; [reflexivity|].
  destruct args as [|a args]; [reflexivity|]. cbn [dict_zip].
  rewrite IH by (intros H; apply Hn; now right).
  apply lookup_insert_ne. intros ->. apply Hn. now left.
Qed.

Lemma dict_zip_bound (names : list string) (args : list value) (i : nat)
  (n : string) (a : value) (acc : gmap string value) :
  List.NoDup names -> nth_error names i = Some n -> nth_error args i = Some a ->
  dict_zip names args acc !! n = Some a.
Proof.
  revert args i acc. induction names as [|x names IH]; intros args i acc Hnd Hn Ha.
  - destruct i; discriminate.
  - destruct args as [|b args]; [destruct i; discriminate|].
    apply List.NoDup_cons_iff in Hnd as [Hx Hnd]. cbn [dict_zip].
    destruct i as [|i]; cbn [nth_error] in Hn, Ha.
    + injection Hn as ->. injection Ha as ->.
      rewrite dict_zip_other by exact Hx. apply lookup_insert_eq.
    + eapply IH; eassumption.
Qed.

(** X15. [Function.call] binds each parameter to its argument and
    replaces the environment of the caller: with distinct parameter
    names, a function with an empty body that returns its [i]-th
    parameter returns the [i]-th argument, and the variables it leaves
    are exactly the zipped parameters, whatever they were before. *)
Theorem call_binds_parameters (fuel : nat) (names : list string) (args : list value)
  (i : nat) (n : string) (a : value) (c : Compiler) :
  List.NoDup names -> nth_error names i = Some n -> nth_error args i = Some a ->
  exists c',
    call (evaluate (S fuel)) (Function names (mkCode []) (Some (Get n))) args c
    = (c', Ok a) /\
    variables c' = Some (dict_zip names args ∅) /\
    program c' = program c /\ current_index c' = current_index c.
Proof.
  intros Hnd Hn Ha. cbn [call Code_execute for_each evaluate].
  unfold bind, set_variables, ret, get_variable. cbn [variables].
  rewrite (dict_zip_bound names args i n a ∅ Hnd Hn Ha).
  eexists. split; [reflexivity|]. cbn. auto.
Qed.

Lemma call_binds_parameters_witness :
  exists c',
    call (evaluate 1) (Function ["a"; "b"] (mkCode []) (Some (Get "b")))
         [PyInt 1; PyInt 2] compiler
    = (c', Ok (PyInt 2)) /\
    variables c' = Some (dict_zip ["a"; "b"] [PyInt 1; PyInt 2] ∅) /\
    program c' = program compiler /\ current_index c' = current_index compiler.
Proof.
  apply (call_binds_parameters 0 ["a"; "b"] [PyInt 1; PyInt 2] 1 "b" (PyInt 2) compiler).
  - apply List.NoDup_cons; [cbn; intros [H|[]]; discriminate|].
    apply List.NoDup_cons; [cbn; tauto | apply List.NoDup_nil].
  - reflexivity.
  - reflexivity.
Defined.

Lemma variables_after_allocate (c : Compiler) :
  variables (after_allocate c) = variables c.
Proof. unfold after_allocate. now destruct (gaps c). Qed.

(** X16. Declaring a byte and reading the name back: inside a function
    (the environment exists) [Declaration] takes a cell from the
    allocator, binds the name to a byte in that cell and returns [None];
    [Get] of the name then returns that byte and every other name is
    bound as before.  Outside any function the environment does not
    exist: [Declaration] raises [AttributeError] after the cell has been
    taken. *)
Theorem declaration_then_get (fuel fuel' : nat) (name : string) (c : Compiler) :
  (forall vars, variables c = Some vars ->
     exists c',
       evaluate (S fuel) (Declaration ByteType name) c = (c', Ok PyNone) /\
       evaluate (S fuel') (Get name) c' = (c', Ok (Byte ByteType (next_cell c))) /\
       (forall other, other <> name ->
                      get_variable other c' = (c', outcome (get_variable other c))) /\
       program c' = program c) /\
  (variables c = None ->
     evaluate (S fuel) (Declaration ByteType name) c
     = (after_allocate c, Raise (AttributeError "variables"))).
Proof.
  split.
  - intros vars Hv. cbn [evaluate].
    rewrite (bind_ok _ _ _ _ _ (new_byte_eq c)).
    unfold bind, set_variable, ret. rewrite variables_after_allocate, Hv.
    eexists. split; [reflexivity|]. unfold get_variable. cbn [variables].
    rewrite lookup_insert_eq. split; [reflexivity|].
    split; [|apply program_after_allocate].
    intros other Hne. rewrite lookup_insert_ne by congruence.
    rewrite Hv. unfold outcome. destruct (vars !! other); reflexivity.
  - intros Hv. cbn [evaluate].
    rewrite (bind_ok _ _ _ _ _ (new_byte_eq c)).
    unfold bind, set_variable. now rewrite variables_after_allocate, Hv.
Qed.

Lemma declaration_then_get_witness :
  (exists c',
      evaluate 1 (Declaration ByteType "x")
               (mkCompiler [] 0 0 [] (Some ∅) intrinsics) = (c', Ok PyNone) /\
      evaluate 1 (Get "x") c' = (c', Ok (Byte ByteType 0))) /\
  evaluate 1 (Declaration ByteType "x") compiler
  = (after_allocate compiler, Raise (AttributeError "variables")).
Proof.
  destruct (declaration_then_get 0 0 "x" (mkCompiler [] 0 0 [] (Some ∅) intrinsics))
    as [H _].
  destruct (H ∅ eq_refl) as (c' & H1 & H2 & _).
  split; [exists c'; split; assumption|].
  apply (proj2 (declaration_then_get 0 0 "x" compiler)). reflexivity.
Defined.

(** ** Conditionals and loops of the source language *)

Lemma loop_result (body : M unit) (c c2 : Compiler) (u : unit) :
  body (emit_at c ["["] (current_index c)) = (c2, Ok u) ->
  loop body c
  = (emit_at c2 ["]"] (current_index c2),
     if current_index c =? current_index c2
     then Ok tt else Raise (Exception "unbalanced loop")).
Proof.
  intros Hb. rewrite loop_unfold.
  rewrite (bind_ok _ _ _ _ _ (execute_emit "[" c)).
  rewrite (bind_ok _ _ _ _ _ Hb).
  rewrite (bind_ok _ _ _ _ _ (execute_emit "]" c2)).
  rewrite current_index_emit_at.
  now destruct (current_index c =? current_index c2).
Qed.

(** X17. An [if] never trips the balance check of its own loop: when the
    condition evaluates to a byte in cell [p] and the body executes, the
    node goes back to [p], emits the zeroing of the condition and the
    closing bracket, and returns [None] with the predicted head on
    [p]. *)
Theorem if_closes_its_loop (fuel : nat) (condition : node) (code : Code)
  (c c1 c2 : Compiler) (t : pytype) (p : Z) :
  evaluate fuel condition c = (c1, Ok (Byte t p)) ->
  Code_execute (evaluate fuel) code
               (emit_at c1 [moves (current_index c1) p; "["] p) = (c2, Ok tt) ->
  evaluate (S fuel) (If condition code) c
  = (emit_at c2 [moves (current_index c2) p; "[-]"; "]"] p, Ok PyNone).
Proof.
  intros Hc Hb. cbn [evaluate].
  rewrite (bind_ok _ _ _ _ _ Hc). do 2 sym_step.
  rewrite (bind_ok _ _ (emit_at c1 [moves (current_index c1) p] p)
             (emit_at c2 [moves (current_index c2) p; "[-]"; "]"] p) tt);
    [reflexivity|].
  rewrite (loop_result _ _ (emit_at c2 [moves (current_index c2) p; "[-]"] p) tt).
  - now rewrite emit_at_emit_at, !current_index_emit_at, Z.eqb_refl.
  - rewrite emit_at_emit_at, current_index_emit_at. cbn [app].
    rewrite (bind_ok _ _ _ _ _ Hb). do 2 sym_step.
    now rewrite execute_emit, emit_at_emit_at, current_index_emit_at.
Qed.

Lemma if_closes_its_loop_witness :
  evaluate 2 (If (FunctionCall "read" []) (mkCode [])) compiler
  = (emit_at (emit_at (state_of (Intrinsic.read compiler)) [moves 0 0; "["] 0)
             [moves 0 0; "[-]"; "]"] 0,
     Ok PyNone).
Proof.
  apply (if_closes_its_loop 1 (FunctionCall "read" []) (mkCode []) compiler
           (state_of (Intrinsic.read compiler))
           (emit_at (state_of (Intrinsic.read compiler)) [moves 0 0; "["] 0)
           ByteType 0); reflexivity.
Defined.

(** X18. A [while] trips the balance check exactly when its condition
    moves: when the condition evaluates to a byte in cell [p], the body
    executes and the condition, evaluated again, is a byte in cell [p'],
    the node closes the loop on [p'] and returns [None] if [p' = p], and
    raises "unbalanced loop" otherwise. *)
Theorem while_needs_a_fixed_condition (fuel : nat) (condition : node) (code : Code)
  (c c1 c2 c3 : Compiler) (t t' : pytype) (p p' : Z) :
  evaluate fuel condition c = (c1, Ok (Byte t p)) ->
  Code_execute (evaluate fuel) code
               (emit_at c1 [moves (current_index c1) p; "["] p) = (c2, Ok tt) ->
  evaluate fuel condition c2 = (c3, Ok (Byte t' p')) ->
  evaluate (S fuel) (While condition code) c
  = (emit_at c3 [moves (current_index c3) p'; "]"] p',
     if p =? p' then Ok PyNone else Raise (Exception "unbalanced loop")).
Proof.
  intros Hc Hb Hc'. cbn [evaluate].
  rewrite (bind_ok _ _ _ _ _ Hc). do 2 sym_step.
  assert (Hl : loop (Code_execute (evaluate fuel) code ;;;
                     cond' <- evaluate fuel condition ;;
                     p'0 <- pointer_of cond' ;; goto p'0)
                    (emit_at c1 [moves (current_index c1) p] p)
               = (emit_at c3 [moves (current_index c3) p'; "]"] p',
                  if p =? p' then Ok tt else Raise (Exception "unbalanced loop"))).
  { rewrite (loop_result _ _ (emit_at c3 [moves (current_index c3) p'] p') tt).
    - now rewrite emit_at_emit_at, !current_index_emit_at.
    - rewrite emit_at_emit_at, current_index_emit_at. cbn [app].
      rewrite (bind_ok _ _ _ _ _ Hb), (bind_ok _ _ _ _ _ Hc').
      sym_step. apply goto_emit. }
  destruct (p =? p').
  - now rewrite (bind_ok _ _ _ _ _ Hl).
  - now rewrite (bind_raise _ _ _ _ _ Hl).
Qed.

Lemma while_needs_a_fixed_condition_witness :
  evaluate 2 (While (FunctionCall "read" []) (mkCode [])) compiler
  = (emit_at (state_of (Intrinsic.read
                          (emit_at (state_of (Intrinsic.read compiler))
                                   [moves 0 0; "["] 0)))
             [moves 1 1; "]"] 1,
     Raise (Exception "unbalanced loop")).
Proof.
  apply (while_needs_a_fixed_condition 1 (FunctionCall "read" []) (mkCode []) compiler
           (state_of (Intrinsic.read compiler))
           (emit_at (state_of (Intrinsic.read compiler)) [moves 0 0; "["] 0)
           (state_of (Intrinsic.read
                        (emit_at (state_of (Intrinsic.read compiler))
                                 [moves 0 0; "["] 0)))
           ByteType ByteType 0 1); reflexivity.
Defined.

(** ** What compilation leaves alone *)

Lemma extends_refl (c : Compiler) : extends c c.
Proof. split; [reflexivity|]. exists []. now rewrite app_nil_r. Qed.

Lemma extends_trans (c c1 c2 : Compiler) :
  extends c c1 -> extends c1 c2 -> extends c c2.
Proof.
  intros [F1 [l1 P1]] [F2 [l2 P2]]. split; [congruence|].
  exists (l1 ++ l2)%list. now rewrite P2, P1, app_assoc.
Qed.

Lemma extends_emit_at (c : Compiler) (pieces : list string) (i : Z) :
  extends c (emit_at c pieces i).
Proof. split; [reflexivity|]. now exists pieces. Qed.

Lemma grows_ret {A} (a : A) : grows (ret a).
Proof. intros c. apply extends_refl. Qed.

Lemma grows_raise {A} (e : exn) : grows (@raise A e).
Proof. intros c. apply extends_refl. Qed.

Lemma grows_bind {A B} (m : M A) (k : A -> M B) :
  grows m -> (forall a, grows (k a)) -> grows (bind m k).
Proof.
  intros Hm Hk c. unfold bind. specialize (Hm c).
  destruct (m c) as [c1 [a|e]]; [|exact Hm].
  eapply extends_trans; [exact Hm | apply Hk].
Qed.

Lemma grows_for_each {A} (l : list A) (body : A -> M unit) :
  (forall x, grows (body x)) -> grows (for_each l body).
Proof.
  intros Hb. induction l as [|x l IH]; cbn [for_each]; [apply grows_ret|].
  apply grows_bind; [apply Hb | intros ?; exact IH].
Qed.

Lemma grows_map_M {A B} (f : A -> M B) (l : list A) :
  (forall x, grows (f x)) -> grows (map_M f l).
Proof.
  intros Hf. induction l as [|x l IH]; cbn [map_M]; [apply grows_ret|].
  apply grows_bind; [apply Hf | intros y].
  apply grows_bind; [exact IH | intros ys; apply grows_ret].
Qed.

(** Computations that touch neither the program nor the table. *)
Lemma grows_quiet {A} (m : M A) :
  (forall c, program (fst (m c)) = program c /\
             functions (fst (m c)) = functions c) ->
  grows m.
Proof.
  intros H c. destruct (H c) as [Hp Hf]. split; [exact Hf|].
  exists []. now rewrite app_nil_r.
Qed.

Lemma grows_execute (code : string) : grows (execute code).
Proof. intros c. rewrite execute_emit. apply extends_emit_at. Qed.

Lemma grows_goto (k : Z) : grows (goto k).
Proof. intros c. rewrite goto_emit. apply extends_emit_at. Qed.

Lemma grows_loop (body : M unit) : grows body -> grows (loop body).
Proof.
  intros Hb c. rewrite loop_unfold. generalize (current_index c) at 1. intros save.
  revert c.
  change (grows (execute "[" ;;; body ;;; execute "]" ;;;
                 (fun c' => if negb (save =? current_index c')
                            then raise (Exception "unbalanced loop") c'
                            else ret tt c'))).
  apply grows_bind; [apply grows_execute | intros ?].
  apply grows_bind; [exact Hb | intros ?].
  apply grows_bind; [apply grows_execute | intros ?].
  apply grows_quiet. intros c. destruct (negb _); cbn; auto.
Qed.

Create HintDb grows_ops.

Ltac quiet :=
  apply grows_quiet; intros ?;
  repeat match goal with
         | |- context [match ?x with _ => _ end] => destruct x
         | |- context [if ?b then _ else _] => destruct b
         end; cbn; auto.

Lemma grows_pointer_of v : grows (pointer_of v).
Proof. unfold pointer_of. quiet. Qed.
Lemma grows_value_of v : grows (value_of v).
Proof. unfold value_of. quiet. Qed.
Lemma grows_type_of v : grows (type_of v).
Proof. unfold type_of. quiet. Qed.
Lemma grows_values_of v : grows (values_of v).
Proof. unfold values_of. quiet. Qed.
Lemma grows_str_mul s v : grows (str_mul s v).
Proof. unfold str_mul. quiet. Qed.
Lemma grows_allocate : grows allocate.
Proof. unfold allocate. quiet. Qed.
Lemma grows_free_cell i : grows (free_cell i).
Proof. unfold free_cell. quiet. Qed.
Lemma grows_lookup_function n ts : grows (lookup_function n ts).
Proof. unfold lookup_function. quiet. Qed.
Lemma grows_get_variable n : grows (get_variable n).
Proof. unfold get_variable. quiet. Qed.
Lemma grows_set_variable n v : grows (set_variable n v).
Proof. unfold set_variable. quiet. Qed.
Lemma grows_set_variables vars : grows (set_variables vars).
Proof. unfold set_variables. quiet. Qed.
Lemma grows_getitem vs i : grows (getitem vs i).
Proof. unfold getitem. quiet. Qed.
Lemma grows_free v : grows (free v).
Proof. destruct v; cbn [free]; first [apply grows_free_cell | quiet]. Qed.

#[local] Hint Resolve grows_ret grows_raise grows_execute grows_goto
  grows_pointer_of grows_value_of grows_type_of grows_values_of grows_str_mul
  grows_allocate grows_free_cell grows_lookup_function grows_get_variable
  grows_set_variable grows_set_variables grows_getitem grows_free : grows_ops.

Ltac grows_tac :=
  lazymatch goal with
  | |- grows (bind _ _) => apply grows_bind; [ grows_tac | intros ?; grows_tac ]
  | |- grows (loop _) => apply grows_loop; grows_tac
  | |- grows (for_each _ _) => apply grows_for_each; intros ?; grows_tac
  | |- grows (match ?r with Some _ => _ | None => _ end) => destruct r; grows_tac
  | |- grows _ => solve [auto with grows_ops]
  end.

Lemma grows_move_cell source targets multiplier :
  grows (move_cell source targets multiplier).
Proof. unfold move_cell. grows_tac. Qed.
#[local] Hint Resolve grows_move_cell : grows_ops.

Lemma grows_new t : grows (new t).
Proof. destruct t; cbn [new]; grows_tac. Qed.
#[local] Hint Resolve grows_new : grows_ops.

Lemma grows_copy v : grows (copy v).
Proof. destruct v; cbn [copy]; try grows_tac. unfold Byte_copy. grows_tac. Qed.
#[local] Hint Resolve grows_copy : grows_ops.

Lemma grows_call_builtin func args : grows (call_builtin func args).
Proof.
  destruct func; destruct args as [|x [|y [|z args]]]; cbn [call_builtin];
    try apply grows_raise;
    unfold Intrinsic.assign, Intrinsic.assign_virtual, Intrinsic.succ,
      Intrinsic.pred, Intrinsic.iadd, Intrinsic.iadd_virtual, Intrinsic.isub,
      Intrinsic.isub_virtual, Intrinsic.imul, Intrinsic.imul_virtual,
      Intrinsic.nnot, Intrinsic.eq, Intrinsic.read, Intrinsic.write;
    grows_tac.
Qed.
#[local] Hint Resolve grows_call_builtin : grows_ops.

Lemma grows_evaluate (fuel : nat) (n : node) : grows (evaluate fuel n).
Proof.
  revert n. induction fuel as [|fuel IH]; intros n; cbn [evaluate].
  - apply grows_raise.
  - assert (Hcode : forall code, grows (Code_execute (evaluate fuel) code)).
    { intros [sts]. cbn [Code_execute]. grows_tac. }
    assert (Hcall : forall f args, grows (call (evaluate fuel) f args)).
    { intros [func|names code rexpr] args; cbn [call]; grows_tac. }
    assert (Hmap : forall l, grows (map_M (evaluate fuel) l))
      by (intros l; apply grows_map_M, IH).
    assert (Htypes : forall l, grows (map_M type_of l))
      by (intros l; apply grows_map_M; intros ?; grows_tac).
    destruct n; grows_tac.
Qed.

(** X19. Compilation only appends: whatever node is evaluated, to
    whatever depth and whether it returns or raises, the program
    afterwards starts with the program before, and the table of
    functions is the one it started with. *)
Theorem evaluate_only_appends (fuel : nat) (n : node) (c : Compiler) :
  functions (state_of (evaluate fuel n c)) = functions c /\
  exists pieces,
    program (state_of (evaluate fuel n c)) = (program c ++ pieces)%list.
Proof. exact (grows_evaluate fuel n c). Qed.

(** X20. Without an entry for [main] with no parameters in the table,
    [compile] raises [KeyError] and leaves the compiler untouched. *)
Theorem compile_raises_without_main (fuel : nat) (c : Compiler) :
  find (fun entry => key_eq (fst entry) ("main", [])) (functions c) = None ->
  compile (S fuel) c = (c, Raise (KeyError "main")).
Proof.
  intros H. unfold compile. cbn [evaluate map_M].
  unfold bind, ret. cbn [map_M]. unfold ret, lookup_function. now rewrite H.
Qed.

Lemma compile_raises_without_main_witness :
  compile 1 compiler = (compiler, Raise (KeyError "main")).
Proof. apply (compile_raises_without_main 0 compiler). reflexivity. Defined.

(** ** Echo, end to end *)

Lemma compile_echo (n : nat) :
  compile (S (S (S n))) (register "main" [] echo_main compiler)
  = (mkCompiler [""; ","; ""; "."] 0 1 [] (Some ∅)
                (intrinsics ++ [(("main", []), echo_main)]),
     Ok [""; ","; ""; "."]).
Proof. vm_compute. reflexivity. Qed.

(** X21. Echo: compiling [write(read());] as the body of [main] succeeds
    (at every evaluation depth from 3 on) and leaves one cell allocated;
    the emitted text, run on the all-zero tape, consumes the first byte
    of the input and writes it, reduced modulo 256, as the only
    output. *)
Theorem echo_end_to_end (b : Z) (rest : list Z) :
  exists c' prog fuel m',
    (forall n, compile (3 + n) (register "main" [] echo_main compiler)
               = (c', Ok prog)) /\
    non_allocated c' = 1 /\
    run fuel (join prog) (mkMachine blank 0 (b :: rest) []) = Some m' /\
    output m' = [b mod 256] /\
    input m' = rest.
Proof.
  eexists _, [""; ","; ""; "."], 3%nat, _.
  split; [intros n; apply (compile_echo n)|].
  split; [reflexivity|]. split; [reflexivity|]. split; reflexivity.
Qed.

(** ** Increment, decrement, input and output *)

Lemma straight_in : straight "," [IIn].
Proof. intros cur stack. reflexivity. Qed.

(** Running a move followed by loop-free instructions. *)
Lemma run_moves_then (from p : Z) (piece : string) (q : list instr) (m : machine) :
  straight piece q -> forallb basic q = true -> head m = from ->
  exists fuel,
    run fuel (join [moves from p; piece]) m
    = Some (steps q (mkMachine (tape m) p (input m) (output m))).
Proof.
  intros Hs Hq Hh.
  assert (Hb : forallb basic (moves_instrs from p ++ q) = true)
    by (now rewrite forallb_app, basic_moves, Hq).
  destruct (runs_steps _ m Hb) as [fuel Hr]. exists fuel.
  unfold run.
  rewrite (straight_parse _ (moves_instrs from p ++ q)).
  - now rewrite Hr, steps_app, (steps_moves _ _ _ Hh).
  - apply straight_join_cons; [apply straight_moves | now apply straight_join_one].
Qed.

(** X22. [++] and [--] return their operand, and the text they emit, run
    with the head where the compiler predicts it, adds one to,
    respectively takes one from, the operand's cell modulo 256 and moves
    the head there. *)
Theorem succ_pred_step_the_cell (t : pytype) (p : Z) (c : Compiler) (m : machine) :
  head m = current_index c ->
  (exists pieces fuel,
      Intrinsic.succ (Byte t p) c = (emit_at c pieces p, Ok (Byte t p)) /\
      run fuel (join pieces) m
      = Some (mkMachine (update (tape m) p ((tape m p + 1) mod 256)) p
                        (input m) (output m))) /\
  (exists pieces fuel,
      Intrinsic.pred (Byte t p) c = (emit_at c pieces p, Ok (Byte t p)) /\
      run fuel (join pieces) m
      = Some (mkMachine (update (tape m) p ((tape m p - 1) mod 256)) p
                        (input m) (output m))).
Proof.
  intros Hh. split.
  - destruct (run_moves_then (current_index c) p "+" [IInc] m
                straight_inc eq_refl Hh) as [fuel Hr].
    exists [moves (current_index c) p; "+"], fuel. split; [|exact Hr].
    unfold Intrinsic.succ. do 3 sym_step. cbn [ret].
    now rewrite !emit_at_emit_at, !current_index_emit_at.
  - destruct (run_moves_then (current_index c) p "-" [IDec] m
                straight_dec eq_refl Hh) as [fuel Hr].
    exists [moves (current_index c) p; "-"], fuel. split; [|exact Hr].
    unfold Intrinsic.pred. do 3 sym_step. cbn [ret].
    now rewrite !emit_at_emit_at, !current_index_emit_at.
Qed.

Lemma succ_pred_step_the_cell_witness :
  (exists pieces fuel,
      Intrinsic.succ (Byte ByteType 2) compiler
      = (emit_at compiler pieces 2, Ok (Byte ByteType 2)) /\
      run fuel (join pieces) (mkMachine blank 0 [] [])
      = Some (mkMachine (update blank 2 ((blank 2 + 1) mod 256)) 2 [] [])) /\
  (exists pieces fuel,
      Intrinsic.pred (Byte ByteType 2) compiler
      = (emit_at compiler pieces 2, Ok (Byte ByteType 2)) /\
      run fuel (join pieces) (mkMachine blank 0 [] [])
      = Some (mkMachine (update blank 2 ((blank 2 - 1) mod 256)) 2 [] [])).
Proof.
  apply (succ_pred_step_the_cell ByteType 2 compiler (mkMachine blank 0 [] [])).
  reflexivity.
Defined.

(** X23. [write] returns [None], and the text it emits, run with the head
    where the compiler predicts it, appends the byte in the operand's
    cell to the output and changes neither the tape nor the input. *)
Theorem write_outputs_the_cell (t : pytype) (p : Z) (c : Compiler) (m : machine) :
  head m = current_index c ->
  exists pieces fuel,
    Intrinsic.write (Byte t p) c = (emit_at c pieces p, Ok PyNone) /\
    run fuel (join pieces) m
    = Some (mkMachine (tape m) p (input m) (output m ++ [tape m p])).
Proof.
  intros Hh.
  destruct (run_moves_then (current_index c) p "." [IOut] m
              straight_out eq_refl Hh) as [fuel Hr].
  exists [moves (current_index c) p; "."], fuel. split; [|exact Hr].
  unfold Intrinsic.write. do 3 sym_step. cbn [ret].
  now rewrite !emit_at_emit_at, !current_index_emit_at.
Qed.

Lemma write_outputs_the_cell_witness :
  exists pieces fuel,
    Intrinsic.write (Byte ByteType 1) compiler = (emit_at compiler pieces 1, Ok PyNone) /\
    run fuel (join pieces) (mkMachine (update blank 1 65) 0 [] [7])
    = Some (mkMachine (update blank 1 65) 1 [] ([7] ++ [update blank 1 65 1])).
Proof.
  apply (write_outputs_the_cell ByteType 1 compiler
           (mkMachine (update blank 1 65) 0 [] [7])).
  reflexivity.
Defined.

(** X24. [read] takes a cell from the allocator and returns a byte in
    it; the text it emits, run with the head where the compiler predicts
    it and a byte [b] waiting in the input, consumes [b] and stores
    [b mod 256] in that cell. *)
Theorem read_stores_the_input (c : Compiler) (m : machine) (b : Z) (rest : list Z) :
  head m = current_index c -> input m = b :: rest ->
  exists pieces fuel,
    Intrinsic.read c
    = (emit_at (after_allocate c) pieces (next_cell c),
       Ok (Byte ByteType (next_cell c))) /\
    run fuel (join pieces) m
    = Some (mkMachine (update (tape m) (next_cell c) (b mod 256)) (next_cell c)
                      rest (output m)).
Proof.
  intros Hh Hin.
  destruct (run_moves_then (current_index c) (next_cell c) "," [IIn] m
              straight_in eq_refl Hh) as [fuel Hr].
  exists [moves (current_index c) (next_cell c); ","], fuel. split.
  - unfold Intrinsic.read. rewrite (bind_ok _ _ _ _ _ (allocate_eq c)).
    do 2 sym_step. cbn [ret].
    now rewrite !emit_at_emit_at, !current_index_emit_at, current_index_after_allocate.
  - rewrite Hr. cbn [steps fold_left step input]. now rewrite Hin.
Qed.

Lemma read_stores_the_input_witness :
  exists pieces fuel,
    Intrinsic.read compiler
    = (emit_at (after_allocate compiler) pieces (next_cell compiler),
       Ok (Byte ByteType (next_cell compiler))) /\
    run fuel (join pieces) (mkMachine blank 0 [300; 2] [])
    = Some (mkMachine (update blank (next_cell compiler) (300 mod 256))
                      (next_cell compiler) [2] []).
Proof.
  apply (read_stores_the_input compiler (mkMachine blank 0 [300; 2] []) 300 [2]);
    reflexivity.
Defined.

(** ** Assignment between bytes, at run time *)

Lemma assign_emit (t t' : pytype) (px py : Z) (c : Compiler) :
  Intrinsic.assign (Byte t px) (Byte t' py) c
  = (emit_at c ([moves (current_index c) px; "[-]"]
                  ++ move_cell_pieces px py [px] 1) py,
     Ok PyNone).
Proof.
  unfold Intrinsic.assign. do 6 sym_step. cbn [ret].
  now rewrite !emit_at_emit_at, !current_index_emit_at.
Qed.

(** X25. [=] on two bytes in different cells moves the value: the text it
    emits, run on a tape of bytes with the head where the compiler
    predicts it, leaves in the destination the byte the source held,
    whatever the destination held before, zero in the source, every
    other cell as it was, and the head on the source. *)
Theorem assign_moves_the_value (t t' : pytype) (px py : Z) (c : Compiler) (m : machine) :
  px <> py -> head m = current_index c -> bytes (tape m) ->
  exists pieces fuel m',
    Intrinsic.assign (Byte t px) (Byte t' py) c = (emit_at c pieces py, Ok PyNone) /\
    run fuel (join pieces) m = Some m' /\
    head m' = py /\
    tape m' px = tape m py /\
    tape m' py = 0 /\
    (forall i, i <> px -> i <> py -> tape m' i = tape m i).
Proof.
  intros Hne Hh Hb.
  set (d1 := mkMachine (update (tape m) px 0) px (input m) (output m)).
  set (d2 := mkMachine
               (fun i => if i =? py then 0
                         else (tape d1 i + tape d1 py
                               * (occurrences [px] i * Z.of_nat (Z.to_nat 1))) mod 256)
               py (input m) (output m)).
  assert (Hg : goes ((moves_instrs (current_index c) px ++ [ILoop [IDec]])
                       ++ move_cell_instrs px py [px] (Z.to_nat 1))%list m d2).
  { eapply goes_app.
    - eapply goes_app; [apply goes_moves, Hh|].
      apply (goes_zero (mkMachine (tape m) px (input m) (output m))).
    - apply (goes_move_cell px py [px] (Z.to_nat 1) d1); [|reflexivity].
      cbn. intros [H|[]]. congruence. }
  assert (Hs : straight (join ([moves (current_index c) px; "[-]"]
                                 ++ move_cell_pieces px py [px] 1))
                        ((moves_instrs (current_index c) px ++ [ILoop [IDec]])
                           ++ move_cell_instrs px py [px] (Z.to_nat 1))%list).
  { apply straight_join_app; [|apply straight_move_cell].
    apply straight_join_cons; [apply straight_moves|].
    apply straight_join_one, straight_zero. }
  destruct (goes_run _ _ _ _ Hs Hg Hb) as (fuel & m' & Hrun & (H1 & H2 & _)).
  eexists _, fuel, m'. split; [apply assign_emit|].
  split; [exact Hrun|]. split; [exact H1|].
  unfold d2, d1 in H2. cbn [tape] in H2. unfold update in H2.
  split; [|split].
  - rewrite H2. destruct (Z.eqb_spec px py); [contradiction|].
    destruct (Z.eqb_spec py px); [congruence|].
    rewrite Z.eqb_refl, occurrences_cons, Z.eqb_refl. unfold occurrences. cbn [count_occ].
    replace (0 + tape m py * ((1 + Z.of_nat 0) * Z.of_nat (Z.to_nat 1)))
      with (tape m py) by (cbn; lia).
    apply Z.mod_small, Hb.
  - rewrite H2. now rewrite Z.eqb_refl.
  - intros i Hx Hy. rewrite H2.
    destruct (Z.eqb_spec i py); [contradiction|].
    destruct (Z.eqb_spec i px); [contradiction|].
    rewrite occurrences_cons. destruct (Z.eqb_spec i px); [contradiction|].
    unfold occurrences. cbn [count_occ].
    replace (tape m i + (if py =? px then 0 else tape m py)
                        * ((0 + Z.of_nat 0) * Z.of_nat (Z.to_nat 1)))
      with (tape m i) by lia.
    apply Z.mod_small, Hb.
Qed.

Lemma assign_moves_the_value_witness :
  exists pieces fuel m',
    Intrinsic.assign (Byte ByteType 0) (Byte ByteType 1) compiler
    = (emit_at compiler pieces 1, Ok PyNone) /\
    run fuel (join pieces) (mkMachine (update (update blank 0 9) 1 4) 0 [] []) = Some m' /\
    head m' = 1 /\
    tape m' 0 = update (update blank 0 9) 1 4 1 /\
    tape m' 1 = 0 /\
    (forall i, i <> 0 -> i <> 1 -> tape m' i = update (update blank 0 9) 1 4 i).
Proof.
  apply (assign_moves_the_value ByteType ByteType 0 1 compiler
           (mkMachine (update (update blank 0 9) 1 4) 0 [] [])).
  - discriminate.
  - reflexivity.
  - intros i. cbn. unfold update, blank.
    destruct (i =? 1); [lia|]. destruct (i =? 0); lia.
Defined.

(** ** Registering and finding functions *)





